(** * The journal crawler (scrap_journal/journal_crawler_v3.py)

    A shallow embedding of the crawling and metadata-extraction pipeline.

    Python [str] values are modelled as lists of 8-bit characters, read as
    the code points 0..255 (the Latin-1 block).  On that block [str.lower],
    [str.strip] and the regular-expression classes [\s] and [\w] are written
    out in full.  Library functions the script calls ([os.path.join],
    [os.path.splitext], [re.search], [re.findall], [re.split], [re.sub]) are
    modelled from their CPython definitions. *)

From Stdlib Require Import String Ascii DecimalString DecimalNat.
From Stdlib Require Import Arith ZArith Lia Bool List Permutation.
Import ListNotations.

Set Implicit Arguments.

(* ================================================================== *)
(** * Python strings *)

Module Py.

Definition str := list ascii.

(** A string literal of the source. *)
Definition L (s : string) : str := list_ascii_of_string s.

Definition code (c : ascii) : nat := nat_of_ascii c.

Definition in_range (lo hi : nat) (c : ascii) : bool :=
  (lo <=? code c) && (code c <=? hi).

Definition chr_eqb (a b : ascii) : bool := Ascii.eqb a b.

Fixpoint str_eqb (a b : str) : bool :=
  match a, b with
  | [], [] => true
  | x :: a', y :: b' => chr_eqb x y && str_eqb a' b'
  | _, _ => false
  end.

(** [str.isspace] on one character, which is also the class [\s] of a [str]
    pattern: TAB..CR, FS..US, SPACE, NEL and NBSP. *)
Definition is_space (c : ascii) : bool :=
  in_range 9 13 c || in_range 28 32 c
  || (code c =? 133) || (code c =? 160).

Definition is_digit (c : ascii) : bool := in_range 48 57 c.
Definition is_upper_az (c : ascii) : bool := in_range 65 90 c.
Definition is_lower_az (c : ascii) : bool := in_range 97 122 c.

(** The class [\w] of a [str] pattern: alphanumeric or underscore. *)
Definition is_word (c : ascii) : bool :=
  is_digit c || is_upper_az c || is_lower_az c || (code c =? 95)
  || (code c =? 170) || (code c =? 178) || (code c =? 179)
  || (code c =? 181) || (code c =? 185) || (code c =? 186)
  || in_range 188 190 c
  || in_range 192 214 c || in_range 216 246 c || in_range 248 255 c.

(** [str.lower] on one character. *)
Definition lower_chr (c : ascii) : ascii :=
  if is_upper_az c || (in_range 192 222 c && negb (code c =? 215))
  then ascii_of_nat (code c + 32)
  else c.

Definition lower (s : str) : str := map lower_chr s.

(** [s.startswith(p)] *)
Fixpoint startswith (p s : str) : bool :=
  match p, s with
  | [], _ => true
  | x :: p', y :: s' => chr_eqb x y && startswith p' s'
  | _ :: _, [] => false
  end.

(** [p in s] for strings. *)
Fixpoint contains (p s : str) : bool :=
  startswith p s ||
  match s with
  | [] => false
  | _ :: s' => contains p s'
  end.

(** [c in s] for a one-character [c]. *)
Definition has_chr (c : ascii) (s : str) : bool := existsb (chr_eqb c) s.

(** [s.endswith(p)] *)
Definition endswith (p s : str) : bool := startswith (rev p) (rev s).

Fixpoint lstrip (s : str) : str :=
  match s with
  | c :: t => if is_space c then lstrip t else s
  | [] => []
  end.

Definition rstrip (s : str) : str := rev (lstrip (rev s)).

(** [s.strip()] *)
Definition strip (s : str) : str := rstrip (lstrip s).

(** [s.split(sep)] for a one-character separator: never returns the empty
    list. *)
Fixpoint split (sep : ascii) (s : str) : list str :=
  match s with
  | [] => [[]]
  | c :: t =>
      if chr_eqb c sep then [] :: split sep t
      else match split sep t with
           | w :: ws => (c :: w) :: ws
           | [] => [[c]]
           end
  end.

(** [sep.join(parts)] *)
Fixpoint join (sep : str) (parts : list str) : str :=
  match parts with
  | [] => []
  | [p] => p
  | p :: ps => p ++ sep ++ join sep ps
  end.

(** [f"{n:02d}"] for a natural number. *)
Definition format_02d (n : nat) : str :=
  let d := L (NilEmpty.string_of_uint (Nat.to_uint n)) in
  if length d <? 2 then repeat "0"%char (2 - length d) ++ d else d.

End Py.

Import Py.

(* ================================================================== *)
(** * os.path (posixpath) *)

Module OsPath.

(** [s.rfind(c)]: the index of the last occurrence of [c], or -1.  The scan
    keeps the current index [i] and the last hit [acc]. *)
Fixpoint rfind_from (c : ascii) (s : str) (i : Z) (acc : Z) : Z :=
  match s with
  | [] => acc
  | x :: t => rfind_from c t (i + 1)%Z (if chr_eqb x c then i else acc)
  end.

Definition rfind (c : ascii) (s : str) : Z := rfind_from c s 0%Z (-1)%Z.

(** [p[:i]] and [p[i:]] for a non-negative index. *)
Definition upto (i : Z) (p : str) : str := firstn (Z.to_nat i) p.
Definition from (i : Z) (p : str) : str := skipn (Z.to_nat i) p.

(** The loop of [genericpath._splitext] that skips leading dots: [true]
    when a character other than the dot is met in [n] steps from
    [filenameIndex], which is where the loop returns the split. *)
Fixpoint finds_non_dot (p : str) (filenameIndex : Z) (n : nat) : bool :=
  match n with
  | O => false
  | S n' =>
      match from filenameIndex p with
      | c :: _ =>
          if negb (chr_eqb c "."%char) then true
          else finds_non_dot p (filenameIndex + 1)%Z n'
      | [] => true
      end
  end.

(** [os.path.splitext(p)] *)
Definition splitext (p : str) : str * str :=
  let sepIndex := rfind "/"%char p in
  let dotIndex := rfind "."%char p in
  if (sepIndex <? dotIndex)%Z
     && finds_non_dot p (sepIndex + 1)%Z (Z.to_nat (dotIndex - (sepIndex + 1)))
  then (upto dotIndex p, from dotIndex p)
  else (p, []).

(** [os.path.join(a, b)] *)
Definition join (a b : str) : str :=
  if startswith (L "/") b then b
  else match a with
       | [] => a ++ b
       | _ => if endswith (L "/") a then a ++ b else a ++ L "/" ++ b
       end.

(** What [join] puts before a name that does not start with a slash: the
    directory, ended by a slash unless it is empty. *)
Definition dir_prefix (a : str) : str :=
  match a with
  | [] => []
  | _ => if endswith (L "/") a then a else a ++ L "/"
  end.

End OsPath.

(* ================================================================== *)
(** * Regular expressions

    A backtracking matcher with the priorities of Python's [re]: the first
    alternative first, greedy repetition longest first, lazy repetition
    shortest first.  Repetition is over one character class, which is all the
    patterns of the script use. *)

Module Re.

Inductive re :=
| Eps
| Chr (p : ascii -> bool)
| Rep (greedy : bool) (lo : nat) (p : ascii -> bool)
| Cat (a b : re)
| Alt (a b : re)
| Opt (a : re)
| Grp (a : re)
| Bnd.

(** The matcher's position: the character before it, the text after it, its
    offset in the text and the text of group 1 when it has matched. *)
Record st := St { prev : option ascii; rest : str; off : nat; grp : option str }.

Definition or_else {A} (a b : option A) : option A :=
  match a with
  | Some _ => a
  | None => b
  end.

Definition word_at (c : option ascii) : bool :=
  match c with
  | Some x => is_word x
  | None => false
  end.

Section Matcher.
Variable A : Type.

(** [p*] or [p*?] *)
Fixpoint rep0 (greedy : bool) (p : ascii -> bool) (pv : option ascii)
         (rs : str) (o : nat) (g : option str) (k : st -> option A) : option A :=
  match rs with
  | [] => k (St pv [] o g)
  | c :: t =>
      if p c then
        if greedy
        then or_else (rep0 greedy p (Some c) t (S o) g k) (k (St pv rs o g))
        else or_else (k (St pv rs o g)) (rep0 greedy p (Some c) t (S o) g k)
      else k (St pv rs o g)
  end.

(** [p{lo,}] or [p{lo,}?] *)
Fixpoint rep (greedy : bool) (p : ascii -> bool) (lo : nat) (s : st)
         (k : st -> option A) : option A :=
  match lo with
  | O => rep0 greedy p (prev s) (rest s) (off s) (grp s) k
  | S lo' =>
      match rest s with
      | c :: t =>
          if p c then rep greedy p lo' (St (Some c) t (S (off s)) (grp s)) k
          else None
      | [] => None
      end
  end.

Fixpoint m (r : re) (s : st) (k : st -> option A) : option A :=
  match r with
  | Eps => k s
  | Chr p =>
      match rest s with
      | c :: t => if p c then k (St (Some c) t (S (off s)) (grp s)) else None
      | [] => None
      end
  | Rep greedy lo p => rep greedy p lo s k
  | Cat a b => m a s (fun s' => m b s' k)
  | Alt a b => or_else (m a s k) (m b s k)
  | Opt a => or_else (m a s k) (k s)
  | Grp a =>
      m a s (fun s' =>
        k (St (prev s') (rest s') (off s')
              (Some (firstn (off s' - off s) (rest s)))))
  | Bnd =>
      if xorb (word_at (prev s)) (word_at (hd_error (rest s)))
      then k s else None
  end.

End Matcher.

(** A match: the text before it from the scan's start, the matched text,
    group 1, and the position after it. *)
Record found := Found { before : str; matched : str; group1 : option str; after : st }.

(** The leftmost match at or after a position; [skipped] is the text passed
    over so far, in reverse. *)
Fixpoint scan (r : re) (pv : option ascii) (rs : str) (o : nat)
         (skipped : str) : option found :=
  match m r (St pv rs o None) (fun s' => Some s') with
  | Some s' =>
      Some (Found (rev skipped) (firstn (off s' - o) rs) (grp s') s')
  | None =>
      match rs with
      | [] => None
      | c :: t => scan r (Some c) t (S o) (c :: skipped)
      end
  end.

(** [re.search(r, text)] *)
Definition search (r : re) (text : str) : option found :=
  scan r None text 0 [].

(** The successive non-overlapping matches from a position, with the text
    between them; the last component is the text after the last match.  Each
    pattern of the script consumes at least one character, so every match
    shortens the text left and the length of the text is fuel enough; the
    scan ends at an empty match, which those patterns never produce. *)
Fixpoint matches (fuel : nat) (r : re) (pv : option ascii) (rs : str)
         (o : nat) : list found * str :=
  match fuel with
  | O => ([], rs)
  | S fuel' =>
      match scan r pv rs o [] with
      | None => ([], rs)
      | Some f =>
          let s' := after f in
          match matched f with
          | [] => ([f], rest s')
          | _ :: _ =>
              let (fs, tl) := matches fuel' r (prev s') (rest s') (off s') in
              (f :: fs, tl)
          end
      end
  end.

Definition all_matches (r : re) (text : str) : list found * str :=
  matches (S (length text)) r None text 0.

(** [re.findall(r, text)] for a pattern without groups. *)
Definition findall (r : re) (text : str) : list str :=
  map matched (fst (all_matches r text)).

(** [re.split(r, text)] for a pattern without groups. *)
Definition split (r : re) (text : str) : list str :=
  let (fs, tl) := all_matches r text in
  map before fs ++ [tl].

(** [re.sub(r, repl, text)] for a replacement without group references. *)
Definition sub (r : re) (repl : str) (text : str) : str :=
  let (fs, tl) := all_matches r text in
  concat (map (fun f => before f ++ repl) fs) ++ tl.

(** Pattern constructors. *)
Definition chr (c : ascii) : re := Chr (chr_eqb c).

(** A literal character under [re.IGNORECASE]. *)
Definition chr_i (c : ascii) : re :=
  Chr (fun x => chr_eqb (lower_chr x) (lower_chr c)).

Fixpoint seq (rs : list re) : re :=
  match rs with
  | [] => Eps
  | [r] => r
  | r :: rs' => Cat r (seq rs')
  end.

Fixpoint alt (rs : list re) : re :=
  match rs with
  | [] => Eps
  | [r] => r
  | r :: rs' => Alt r (alt rs')
  end.

Definition lit (s : string) : re := seq (map chr (L s)).
Definition lit_i (s : string) : re := seq (map chr_i (L s)).

Definition one_of (s : string) (c : ascii) : bool := has_chr c (L s).
Definition any_chr (c : ascii) : bool := true.
Definition ascii_letter (c : ascii) : bool := is_upper_az c || is_lower_az c.

(** Texts without, within and stopping a character class. *)
Definition none_of (p : ascii -> bool) (s : str) : Prop :=
  forallb (fun c => negb (p c)) s = true.
Definition all_of (p : ascii -> bool) (s : str) : Prop := forallb p s = true.
Definition stops (p : ascii -> bool) (s : str) : Prop :=
  match s with
  | [] => True
  | c :: _ => p c = false
  end.

(** The replacement applied to a list of matches and the text left. *)
Definition rebuilt (repl : str) (r : list found * str) : str :=
  concat (map (fun f => before f ++ repl) (fst r)) ++ snd r.

(** [reach s s']: the matcher gets from [s] to [s'] by consuming text. *)
Definition reach (s s' : st) : Prop :=
  exists w, rest s = w ++ rest s' /\ off s' = off s + length w.

(** The character before the position a greedy run ends at. *)
Definition after_run (pv : option ascii) (ws : str) : option ascii :=
  fold_left (fun _ c => Some c) ws pv.

End Re.

(* ================================================================== *)
(** * Exceptions *)

Module Exn.

(** An instance of [Exception]; [str(e)] is its message. *)
Inductive exn := Exception (msg : str).

Definition str_of (e : exn) : str :=
  match e with
  | Exception msg => msg
  end.

Inductive result (A : Type) :=
| Ok (a : A)
| Raise (e : exn).
Arguments Ok {A} a.
Arguments Raise {A} e.

Definition bind {A B} (c : result A) (k : A -> result B) : result B :=
  match c with
  | Ok a => k a
  | Raise e => Raise e
  end.

Definition IndexError : exn := Exception (L "list index out of range").

(** [l[i]] for a non-negative index. *)
Definition index {A} (l : list A) (i : nat) : result A :=
  match nth_error l i with
  | Some x => Ok x
  | None => Raise IndexError
  end.

End Exn.

Import Exn.

Declare Scope exn_scope.
Delimit Scope exn_scope with exn.
Notation "x <- c ;; k" := (Exn.bind c (fun x => k))
  (at level 61, c at next level, right associativity) : exn_scope.

(* ================================================================== *)
(** * The crawler's functions *)

Definition dquote : ascii := "034"%char.
Definition newline : ascii := "010"%char.

(** The characters of the class of line 23. *)
Definition invalid_chars : list ascii :=
  ["\"; "/"; "("; ")"; "."; ","; "*"; "?"; ":"; dquote; "<"; ">"; "|"]%char.

Definition is_invalid (c : ascii) : bool := has_chr c invalid_chars.

(** The class of line 23, matching one invalid character. *)
Definition pat_invalid : Re.re := Re.Chr is_invalid.

(** [\s+] *)
Definition pat_spaces : Re.re := Re.Rep true 1 is_space.

Definition sanitize_filename (filename : str) : str :=
  let sanitized := Re.sub pat_invalid [] filename in
  let sanitized := Re.sub pat_spaces (L "_") sanitized in
  if 100 <? length sanitized then firstn 200 sanitized else sanitized.

(** The name before it is cut. *)
Definition uncut (filename : str) : str :=
  Re.sub pat_spaces (L "_") (Re.sub pat_invalid [] filename).

Definition get_file_extension_from_url (url : str) : option str :=
  let path := hd [] (Py.split "?" url) in
  if has_chr "." path then
    let ext := lower (last (Py.split "." path) []) in
    if existsb (str_eqb ext) [L "pdf"; L "docx"] then Some ext else None
  else None.

Definition wordprocessingml : str :=
  L "application/vnd.openxmlformats-officedocument.wordprocessingml.document".

Definition get_file_extension_from_content_type (content_type : str)
  : option str :=
  match content_type with
  | [] => None
  | _ :: _ =>
      let content_type := lower content_type in
      if contains (L "application/pdf") content_type then Some (L "pdf")
      else if contains wordprocessingml content_type then Some (L "docx")
      else if contains (L "application/msword") content_type
           then Some (L "docx")
      else None
  end.

(** [a or b] where [a] is [None] or a string. *)
Definition or_str (a : option str) (b : str) : str :=
  match a with
  | Some ((_ :: _) as x) => x
  | _ => b
  end.

(** [content_ext or url_ext or 'pdf'] (line 78). *)
Definition file_ext_of (content_type url : str) : str :=
  let url_ext := get_file_extension_from_url url in
  let content_ext := get_file_extension_from_content_type content_type in
  or_str content_ext (or_str url_ext (L "pdf")).

(** Lines 81-83: the save path with the extension put right. *)
Definition with_extension (save_path file_ext : str) : str :=
  let (base_path, old_ext) := OsPath.splitext save_path in
  if negb (str_eqb (lower old_ext) (L "." ++ file_ext))
  then base_path ++ L "." ++ file_ext
  else save_path.

(** ** The download *)

(** What the session answers to one GET: the exception of
    [raise_for_status] if it raises, the two headers read, and the chunks
    [iter_content] yields, ended by an exception when the stream (or the
    write of the next chunk) raises. *)
Record response := Response {
  raise_for_status : option exn;
  content_type_header : option str;
  content_length_header : option str;
  iter_content : list str;
  stream_error : option exn
}.

(** The collaborators of [download_file]: the session, [int] on a header
    value and [open] for writing. *)
Record env := Env {
  session_get : str -> result response;
  int_of : str -> result Z;
  open_wb : str -> option exn
}.

(** The files on disk, by path: the last binding of a path is its content. *)
Definition disk := list (str * str).

(** The state [download_file] works on: its local [save_path], which line 83
    reassigns and the handler reads, and the disk. *)
Record dl_state := DlState { save_path : str; files : disk }.

Definition M (A : Type) : Type := dl_state -> result A * dl_state.

Definition ret {A} (a : A) : M A := fun s => (Ok a, s).

Definition bindM {A B} (c : M A) (k : A -> M B) : M B :=
  fun s =>
    match c s with
    | (Ok a, s') => k a s'
    | (Raise e, s') => (Raise e, s')
    end.

Definition lift {A} (r : result A) : M A := fun s => (r, s).

Definition raise_if (e : option exn) : M unit :=
  match e with
  | Some x => lift (Raise x)
  | None => ret tt
  end.

Definition get_save_path : M str := fun s => (Ok (save_path s), s).

Definition set_save_path (p : str) : M unit :=
  fun s => (Ok tt, DlState p (files s)).

(** [open] for writing creates or truncates the file. *)
Definition open_file (w : env) (path : str) : M unit :=
  fun s =>
    match open_wb w path with
    | Some e => (Raise e, s)
    | None => (Ok tt, DlState (save_path s) ((path, []) :: files s))
    end.

Definition content_of (d : disk) (path : str) : str :=
  match find (fun kv => str_eqb (fst kv) path) d with
  | Some kv => snd kv
  | None => []
  end.

(** [file.write(chunk)] *)
Definition write_chunk (path chunk : str) : M unit :=
  fun s =>
    (Ok tt,
     DlState (save_path s) ((path, content_of (files s) path ++ chunk) :: files s)).

Declare Scope dl_scope.
Delimit Scope dl_scope with dl.
Notation "x <- c ;; k" := (bindM c (fun x => k))
  (at level 61, c at next level, right associativity) : dl_scope.

(** The loop over [response.iter_content]: empty chunks are skipped. *)
Fixpoint write_chunks (path : str) (chunks : list str) : M unit :=
  match chunks with
  | [] => ret tt
  | chunk :: more =>
      (_ <- match chunk with
            | [] => ret tt
            | _ :: _ => write_chunk path chunk
            end ;;
       write_chunks path more)%dl
  end.

Record outcome := Outcome {
  success : bool;
  path : str;
  url_of : str;
  extension : option str;
  error : option str
}.

(** The body of the [try] of [download_file] (lines 69-94). *)
Definition download_body (w : env) (url : str) : M outcome :=
  (response <- lift (session_get w url) ;;
   _ <- raise_if (raise_for_status response) ;;
   let content_type :=
     match content_type_header response with
     | Some v => v
     | None => []
     end in
   let file_ext := file_ext_of content_type url in
   given <- get_save_path ;;
   _ <- set_save_path (with_extension given file_ext) ;;
   total_size <- lift match content_length_header response with
                      | Some v => int_of w v
                      | None => Ok 0%Z
                      end ;;
   target <- get_save_path ;;
   _ <- open_file w target ;;
   _ <- write_chunks target (iter_content response) ;;
   _ <- raise_if (stream_error response) ;;
   final <- get_save_path ;;
   ret (Outcome true final url (Some file_ext) None))%dl.

(** [download_file(url, save_path, session)]: the [try] with its handler
    (lines 95-96), which reads the local [save_path] as it then stands. *)
Definition download_file (w : env) (url given : str) (d : disk)
  : outcome * disk :=
  match download_body w url (DlState given d) with
  | (Ok o, s) => (o, files s)
  | (Raise e, s) =>
      (Outcome false (save_path s) url None (Some (str_of e)), files s)
  end.

(** ** Mining text *)

(** [[A-Za-z0-9._%+-]] *)
Definition email_local (c : ascii) : bool :=
  Re.ascii_letter c || is_digit c || Re.one_of "._%+-" c.

(** [[A-Za-z0-9.-]] *)
Definition email_domain (c : ascii) : bool :=
  Re.ascii_letter c || is_digit c || Re.one_of ".-" c.

(** [[A-Z|a-z]] *)
Definition email_tld (c : ascii) : bool :=
  Re.ascii_letter c || Re.one_of "|" c.

Definition email_pattern : Re.re :=
  Re.seq [Re.Bnd; Re.Rep true 1 email_local; Re.chr "@";
          Re.Rep true 1 email_domain; Re.chr "."; Re.Rep true 2 email_tld;
          Re.Bnd].

(** [email.lower() not in [e.lower() for e in unique_emails]] *)
Definition seen (unique_emails : list str) (email : str) : bool :=
  existsb (str_eqb (lower email)) (map lower unique_emails).

(** The loop of lines 180-183. *)
Definition unique (emails : list str) : list str :=
  fold_left
    (fun unique_emails email =>
       if negb (seen unique_emails email)
       then unique_emails ++ [email]
       else unique_emails)
    emails [].

Definition extract_emails_from_text (text : str) : list str :=
  unique (Re.findall email_pattern text).

(** The end of a keyword block, under [re.IGNORECASE]:
    a blank line, a line starting with a letter, or the next section. *)
Definition block_end : Re.re :=
  Re.alt [Re.seq [Re.chr newline; Re.chr newline];
          Re.seq [Re.chr newline; Re.Chr Re.ascii_letter];
          Re.seq [Re.chr newline; Re.lit_i "abstract"];
          Re.seq [Re.chr newline; Re.lit_i "introduction"]].

(** The lazy group [(.+?)] under [re.DOTALL]. *)
Definition block : Re.re := Re.Grp (Re.Rep false 1 Re.any_chr).

Definition keyword_patterns : list Re.re :=
  [Re.seq [Re.lit_i "keyword"; Re.Opt (Re.chr_i "s"); Re.Rep true 0 is_space;
           Re.chr_i ":"; block; block_end];
   Re.seq [Re.lit_i "key"; Re.Rep true 1 is_space; Re.lit_i "word";
           Re.Opt (Re.chr_i "s"); Re.Rep true 0 is_space;
           Re.chr_i ":"; block; block_end];
   Re.seq [Re.lit_i "indexing terms"; Re.Rep true 0 is_space;
           Re.chr_i ":"; block; block_end]].

(** [[,;]\s*|\n] and [[,;]\s*] *)
Definition separators_or_newline : Re.re :=
  Re.Alt (Re.Cat (Re.Chr (Re.one_of ",;")) (Re.Rep true 0 is_space))
         (Re.chr newline).
Definition separators : Re.re :=
  Re.Cat (Re.Chr (Re.one_of ",;")) (Re.Rep true 0 is_space).

(** [keywords?\s*:] without flags. *)
Definition keywords_colon : Re.re :=
  Re.seq [Re.lit "keyword"; Re.Opt (Re.chr "s"); Re.Rep true 0 is_space;
          Re.chr ":"].

Definition nonempty (s : str) : bool :=
  match s with
  | [] => false
  | _ :: _ => true
  end.

(** [[kw.strip() for kw in keywords if kw.strip()]] *)
Definition cleaned (keywords : list str) : list str :=
  map strip (filter (fun kw => nonempty (strip kw)) keywords).

(** The first pattern that matches decides (lines 201-213). *)
Fixpoint try_patterns (patterns : list Re.re) (text_lower : str)
  : option (list str) :=
  match patterns with
  | [] => None
  | pattern :: more =>
      match Re.search pattern text_lower with
      | Some matches =>
          let keywords_text :=
            strip (match Re.group1 matches with Some g => g | None => [] end) in
          Some (cleaned (Re.split separators_or_newline keywords_text))
      | None => try_patterns more text_lower
      end
  end.

(** [line.split(':', 1)[1]] for a line that has a colon. *)
Fixpoint after_colon (line : str) : str :=
  match line with
  | [] => []
  | c :: t => if chr_eqb c ":" then t else after_colon t
  end.

(** The scan of the lines (lines 217-229). *)
Fixpoint scan_lines (lines : list str) : list str :=
  match lines with
  | [] => []
  | line :: rest =>
      match Re.search keywords_colon (lower line) with
      | Some _ =>
          let on_line :=
            if has_chr ":" line then strip (after_colon line) else [] in
          if nonempty on_line
          then cleaned (Re.split separators on_line)
          else match rest with
               | next :: _ =>
                   if nonempty (strip next)
                   then cleaned (Re.split separators (strip next))
                   else scan_lines rest
               | [] => scan_lines rest
               end
      | None => scan_lines rest
      end
  end.

Definition extract_keywords_from_text (text : str) : list str :=
  let text_lower := lower text in
  match try_patterns keyword_patterns text_lower with
  | Some cleaned_keywords => cleaned_keywords
  | None => scan_lines (Py.split newline text)
  end.

(** ** The run: correlation, tasks and results *)

(** One row of the output (lines 414-422). *)
Record article := Article {
  title : str;
  page_number : str;
  authors : str;
  abstract : str;
  file_path : str;
  keywords : str;
  email : str
}.

Definition set_file_path (p : str) (a : article) : article :=
  Article (title a) (page_number a) (authors a) (abstract a) p
          (keywords a) (email a).

(** The six lists of lines 309-314, each fragment reduced to the text or
    attribute the loop reads; an abstract is its [(id, value)] pair. *)
Record fragments := Fragments {
  all_topics : list str;
  all_article_types : list str;
  all_pages : list str;
  all_authors : list str;
  all_downloads : list str;
  all_abstracts : list (str * str)
}.

(** Lines 317-324: the stripped texts of the topic elements, the empty ones
    skipped. *)
Definition collect_topics (texts : list str) : list str :=
  filter nonempty texts.

(** [str(n)] *)
Definition decimal (n : nat) : str :=
  L (NilEmpty.string_of_uint (Nat.to_uint n)).

(** The locals of one turn of the loop (lines 393-404). *)
Record locals := Locals {
  topic : str;
  article_type : str;
  pages : str;
  authors_text : str;
  download_link : str;
  abstract_id : str;
  abstract_text : str
}.

(** A download task (line 440): the record it belongs to, by its index in
    [metadata], the save path and the absolute link. *)
Record task := Task { idx : nat; task_path : str; task_url : str }.

(** Lines 430-437: the link made absolute against the page. *)
Definition absolute_link (url download_link : str) : str :=
  if negb (startswith (L "http") download_link) then
    let base_url := Py.join (L "/") (firstn 3 (Py.split "/" url)) in
    if startswith (L "/") download_link then base_url ++ download_link
    else
      let path_url := Py.join (L "/") (removelast (Py.split "/" url)) in
      path_url ++ L "/" ++ download_link
  else download_link.

Section Main.

(** [BeautifulSoup(v, 'html.parser').get_text()] *)
Variable get_text : str -> str.

Definition extract_abstract (input_value : str) : str :=
  let text := get_text input_value in
  let text := Re.sub pat_spaces (L " ") text in
  strip text.

(** [xs[i] if i < len(xs) else d] *)
Definition item_or (xs : list str) (i : nat) (d : str) : result str :=
  if i <? length xs then index xs i else Ok d.

Definition article_locals (f : fragments) (i : nat) : result locals :=
  (topic <- item_or (all_topics f) i (L "Article " ++ decimal (i + 1)) ;;
   article_type <- item_or (all_article_types f) i (L "Original Research") ;;
   pages <- item_or (all_pages f) i [] ;;
   authors <- item_or (all_authors f) i [] ;;
   download_link <- item_or (all_downloads f) i [] ;;
   ab <- (if i <? length (all_abstracts f)
          then (a <- index (all_abstracts f) i ;;
                Ok (fst a, extract_abstract (snd a)))
          else Ok ([], [])) ;;
   Ok (Locals topic article_type pages authors download_link
              (fst ab) (snd ab)))%exn.

(** Lines 410-411. *)
Definition provisional_path (volume_dir : str) (i : nat) (topic : str) : str :=
  let filename :=
    format_02d (i + 1) ++ L "-" ++ sanitize_filename topic ++ L ".pdf" in
  OsPath.join volume_dir filename.

Definition article_of (volume_dir : str) (i : nat) (v : locals) : article :=
  Article (topic v) (pages v) (authors_text v) (abstract_text v)
          (provisional_path volume_dir i (topic v)) [] [].

(** One turn of the loop of line 391 on [metadata] and [download_tasks]. *)
Definition turn (url volume_dir : str) (f : fragments) (i : nat)
           (acc : list article * list task)
  : result (list article * list task) :=
  (v <- article_locals f i ;;
   let article_data := article_of volume_dir i v in
   let metadata := fst acc ++ [article_data] in
   match download_link v with
   | _ :: _ =>
       let link := absolute_link url (download_link v) in
       Ok (metadata, snd acc ++ [Task i (file_path article_data) link])
   | [] => Ok (metadata, snd acc)
   end)%exn.

Fixpoint for_each (url volume_dir : str) (f : fragments) (range : list nat)
         (acc : list article * list task)
  : result (list article * list task) :=
  match range with
  | [] => Ok acc
  | i :: more =>
      (acc' <- turn url volume_dir f i acc ;;
       for_each url volume_dir f more acc')%exn
  end.

(** Lines 379-442: [metadata] and [download_tasks] after the loop. *)
Definition correlate (url volume_dir : str) (f : fragments)
  : result (list article * list task) :=
  let num_articles := length (all_topics f) in
  for_each url volume_dir f (seq 0 num_articles) ([], []).

(** [metadata[idx]['file_path'] = actual_path].  An index out of range would
    raise inside the [try] of line 465, whose handler leaves [metadata] as
    it is. *)
Fixpoint store_path (metadata : list article) (i : nat) (p : str)
  : list article :=
  match metadata, i with
  | [], _ => []
  | a :: more, O => set_file_path p a :: more
  | a :: more, S i' => a :: store_path more i' p
  end.

(** Lines 464-478: what one completed download does to [metadata]. *)
Definition record_result (metadata : list article) (t : task) (r : outcome)
  : list article :=
  if success r then store_path metadata (idx t) (path r) else metadata.

(** The downloads in their order of completion, each recorded when it
    completes. *)
Fixpoint run_downloads (w : env) (completed : list task)
         (metadata : list article) (d : disk) : list article * disk :=
  match completed with
  | [] => (metadata, d)
  | t :: more =>
      let (r, d') := download_file w (task_url t) (task_path t) d in
      run_downloads w more (record_result metadata t r) d'
  end.

End Main.

(* ================================================================== *)
(** * The specification's notions, and closed forms of the code *)

(** The title with the invalid characters taken out. *)
Definition without_invalid (s : str) : str :=
  filter (fun c => negb (is_invalid c)) s.

Definition no_space (s : str) : Prop :=
  forallb (fun c => negb (is_space c)) s = true.
Definition all_space (s : str) : Prop := forallb is_space s = true.

(** The text starts with something other than white space, or is empty. *)
Definition starts_plain (s : str) : Prop :=
  match s with
  | [] => True
  | c :: _ => is_space c = false
  end.

(** [runs_replaced repl s s']: [s'] is [s] with every maximal run of white
    space replaced by [repl], the rest kept as it is. *)
Inductive runs_replaced (repl : str) : str -> str -> Prop :=
| rr_plain a : no_space a -> runs_replaced repl a a
| rr_run a ws b b' :
    no_space a -> ws <> [] -> all_space ws -> starts_plain b ->
    runs_replaced repl b b' ->
    runs_replaced repl (a ++ ws ++ b) (a ++ repl ++ b').

(** The text before the first [sep], the whole text when there is none. *)
Fixpoint before_first (sep : ascii) (s : str) : str :=
  match s with
  | [] => []
  | c :: t => if chr_eqb c sep then [] else c :: before_first sep t
  end.

(** The text after the last [sep], the whole text when there is none. *)
Fixpoint after_last (sep : ascii) (s : str) : str :=
  match s with
  | [] => []
  | c :: t =>
      if has_chr sep t then after_last sep t
      else if chr_eqb c sep then t else c :: t
  end.

(** The text before the last [sep], empty when there is none. *)
Fixpoint before_last (sep : ascii) (s : str) : str :=
  match s with
  | [] => []
  | c :: t => if has_chr sep t then c :: before_last sep t else []
  end.

(** The text before the [k]-th [sep] counting from one, the whole text when
    there are fewer. *)
Fixpoint before_kth (sep : ascii) (k : nat) (s : str) : str :=
  match s with
  | [] => []
  | c :: t =>
      if chr_eqb c sep then
        match k with
        | O | S O => []
        | S k' => c :: before_kth sep k' t
        end
      else c :: before_kth sep k t
  end.

(** What the content type says: the three recognized types, looked for in
    the header whatever its case. *)
Definition content_type_says (content_type : str) : option str :=
  let ct := lower content_type in
  if contains (L "application/pdf") ct then Some (L "pdf")
  else if contains wordprocessingml ct then Some (L "docx")
  else if contains (L "application/msword") ct then Some (L "docx")
  else None.

(** What the URL says: its own extension, the text after the last dot of the
    URL without its query, when that is pdf or docx in any case. *)
Definition url_says (url : str) : option str :=
  let path := before_first "?" url in
  let ext := lower (after_last "." path) in
  if has_chr "." path && (str_eqb ext (L "pdf") || str_eqb ext (L "docx"))
  then Some ext else None.

(** The policy: the content type first, then the URL, then pdf. *)
Definition resolved_extension (content_type url : str) : str :=
  match content_type_says content_type with
  | Some e => e
  | None =>
      match url_says url with
      | Some e => e
      | None => L "pdf"
      end
  end.

(** The parts of a URL, read off its grammar: a scheme, the mark [://], an
    authority, a path, and then a query after a question mark and a fragment
    after a hash when it has them.  The authority ends before the first
    slash, question mark or hash after the mark; the path ends before the
    first question mark or hash. *)

(** The scheme and the text after the mark, [None] without the mark. *)
Fixpoint after_scheme (url : str) : option (str * str) :=
  match url with
  | [] => None
  | c :: t =>
      if startswith (L "://") url then Some ([], skipn 3 url)
      else match after_scheme t with
           | Some (scheme, rest) => Some (c :: scheme, rest)
           | None => None
           end
  end.

Definition ends_host (c : ascii) : bool := Re.one_of "/?#" c.
Definition ends_path (c : ascii) : bool := Re.one_of "?#" c.

(** The text before the first character of [stop], and the text from it on. *)
Fixpoint upto_chr (stop : ascii -> bool) (s : str) : str :=
  match s with
  | [] => []
  | c :: t => if stop c then [] else c :: upto_chr stop t
  end.

Fixpoint from_chr (stop : ascii -> bool) (s : str) : str :=
  match s with
  | [] => []
  | c :: t => if stop c then s else from_chr stop t
  end.

(** The page's scheme and host.  A page that was fetched has a scheme;
    without one there is nothing to give. *)
Definition scheme_and_host (url : str) : str :=
  match after_scheme url with
  | Some (scheme, rest) => scheme ++ L "://" ++ upto_chr ends_host rest
  | None => []
  end.

(** The page's path: what follows the host, before any query or fragment. *)
Definition path_of (url : str) : str :=
  match after_scheme url with
  | Some (_, rest) => upto_chr ends_path (from_chr ends_host rest)
  | None => []
  end.

(** The page's directory path: the scheme and host, then the path before its
    last slash.  A page without a path has the scheme and host alone. *)
Definition directory_path (url : str) : str :=
  scheme_and_host url ++ before_last "/" (path_of url).

(** The outcome of a download read off the collaborators' answers: the
    first step that raises decides the failure. *)
Definition failed (at_path url : str) (e : exn) : outcome :=
  Outcome false at_path url None (Some (str_of e)).

Definition outcome_of (w : env) (url given : str) : outcome :=
  match session_get w url with
  | Raise e => failed given url e
  | Ok response =>
      match raise_for_status response with
      | Some e => failed given url e
      | None =>
          let content_type :=
            match content_type_header response with
            | Some v => v
            | None => []
            end in
          let file_ext := file_ext_of content_type url in
          let target := with_extension given file_ext in
          match match content_length_header response with
                | Some v => int_of w v
                | None => Ok 0%Z
                end with
          | Raise e => failed target url e
          | Ok _ =>
              match open_wb w target with
              | Some e => failed target url e
              | None =>
                  match stream_error response with
                  | Some e => failed target url e
                  | None => Outcome true target url (Some file_ext) None
                  end
              end
          end
      end
  end.

(** A session that serves every URL as a PDF in one chunk, and one whose
    connection fails. *)
Definition serving_pdf : env :=
  Env (fun _ => Ok (Response None (Some (L "application/pdf")) None
                             [L "%PDF"] None))
      (fun _ => Ok 0%Z)
      (fun _ => None).

Definition unreachable : env :=
  Env (fun _ => Raise (Exception (L "connection refused")))
      (fun _ => Ok 0%Z)
      (fun _ => None).

(** [k] zeros before a decimal number. *)
Fixpoint zeros (k : nat) (u : Decimal.uint) : Decimal.uint :=
  match k with
  | O => u
  | S k' => Decimal.D0 (zeros k' u)
  end.

(** The file name of record [i] without its extension. *)
Definition stem (i : nat) (topic : str) : str :=
  format_02d (i + 1) ++ L "-" ++ sanitize_filename topic.

Section Closed.
Variable get_text : str -> str.

(** The locals of turn [i], read off the lists. *)
Definition locals_at (f : fragments) (i : nat) : locals :=
  let ab :=
    match nth_error (all_abstracts f) i with
    | Some a => (fst a, extract_abstract get_text (snd a))
    | None => ([], [])
    end in
  Locals (nth i (all_topics f) (L "Article " ++ decimal (i + 1)))
         (nth i (all_article_types f) (L "Original Research"))
         (nth i (all_pages f) [])
         (nth i (all_authors f) [])
         (nth i (all_downloads f) [])
         (fst ab) (snd ab).

(** The abstract fragments as plain text: each value cleaned. *)
Definition abstract_fragments (abstracts : list (str * str)) : list str :=
  map (fun a => extract_abstract get_text (snd a)) abstracts.

Definition article_at (volume_dir : str) (f : fragments) (i : nat) : article :=
  article_of volume_dir i (locals_at f i).

Definition tasks_at (url volume_dir : str) (f : fragments) (i : nat)
  : list task :=
  match download_link (locals_at f i) with
  | _ :: _ =>
      [Task i (file_path (article_at volume_dir f i))
            (absolute_link url (download_link (locals_at f i)))]
  | [] => []
  end.

Definition topic_of (f : fragments) (i : nat) : str := topic (locals_at f i).

(** The path of record [i] is its provisional path, with pdf or with docx. *)
Definition path_ok (volume_dir : str) (f : fragments) (i : nat) (a : article)
  : Prop :=
  exists e, (e = L "pdf" \/ e = L "docx") /\
            file_path a
            = OsPath.dir_prefix volume_dir ++ stem i (topic_of f i) ++ L "." ++ e.

Definition paths_ok (volume_dir : str) (f : fragments)
           (metadata : list article) : Prop :=
  forall i a, nth_error metadata i = Some a -> path_ok volume_dir f i a.

End Closed.

(** Equality of two strings ignoring case. *)
Definition same_ignoring_case (a b : str) : bool :=
  str_eqb (lower a) (lower b).

(** The matches kept when only first occurrences count: a match is kept
    exactly when no match before it in the text, kept or not, equals it
    ignoring case.  [prior] holds the matches already passed. *)
Fixpoint first_occurrences (prior matches : list str) : list str :=
  match matches with
  | [] => []
  | x :: more =>
      if existsb (same_ignoring_case x) prior
      then first_occurrences (x :: prior) more
      else x :: first_occurrences (x :: prior) more
  end.

(** A page with two topics and one link, and its directory. *)
Definition two_topics : fragments :=
  Fragments [L "Soil pH Effects"; L "Nitrogen Study"] [] [L "1-9"] []
            [L "http://x/a.pdf"] [(L "abs1", L " a  b ")].

Definition downloads_dir : str := L "/home/u/Downloads/vol".

(** The mined text of the scenario. *)
Definition scenario_text : str :=
  L "Keywords: soil, nitrogen, pH" ++ [newline; newline] ++ L "Abstract: ...".

(* ================================================================== *)
(** * Reading the files and the whole run *)

(** The documents as the two libraries read them: the text of each page of
    a PDF ([None] for a page without text), and the paragraphs and the
    tables, as rows of cells, of a DOCX.  Either raises when opening the file
    or reading any part of it raises. *)
Record reader := Reader {
  pdf_pages : str -> result (list (option str));
  docx_parts : str -> result (list str * list (list (list str)))
}.

Definition extract_text_from_pdf (r : reader) (pdf_path : str) : str :=
  match pdf_pages r pdf_path with
  | Ok pages =>
      fold_left (fun text page => text ++ or_str page [] ++ [newline]) pages []
  | Raise _ => []
  end.

Definition extract_text_from_docx (r : reader) (docx_path : str) : str :=
  match docx_parts r docx_path with
  | Ok (paragraphs, tables) =>
      let text := fold_left (fun text para => text ++ para ++ [newline])
                            paragraphs [] in
      fold_left
        (fun text table =>
           fold_left
             (fun text row =>
                fold_left (fun text cell => text ++ cell ++ [newline]) row text)
             table text)
        tables text
  | Raise _ => []
  end.

(** What [process_file_for_metadata] returns. *)
Record mined := Mined { mined_email : str; mined_keywords : str }.

(** [", ".join(items) if items else ""] *)
Definition joined (items : list str) : str :=
  match items with
  | [] => []
  | _ :: _ => Py.join (L ", ") items
  end.

(** Lines 250-256. *)
Definition mined_from (text : str) : mined :=
  let emails := extract_emails_from_text text in
  let keywords := extract_keywords_from_text text in
  Mined (joined emails) (joined keywords).

Definition process_file_for_metadata (r : reader) (file_path : str) : mined :=
  let ext := lower (snd (OsPath.splitext file_path)) in
  if str_eqb ext (L ".pdf") then mined_from (extract_text_from_pdf r file_path)
  else if str_eqb ext (L ".docx")
       then mined_from (extract_text_from_docx r file_path)
  else Mined [] [].

Definition set_mined (m : mined) (a : article) : article :=
  Article (title a) (page_number a) (authors a) (abstract a) (file_path a)
          (mined_keywords m) (mined_email m).

(** Lines 496-497: the two fields of [metadata[idx]] set. *)
Fixpoint store_mined (metadata : list article) (i : nat) (m : mined)
  : list article :=
  match metadata, i with
  | [], _ => []
  | a :: more, O => set_mined m a :: more
  | a :: more, S i' => a :: store_mined more i' m
  end.

(** Lines 461-480 with [successful_downloads]: each completed download is
    recorded, and a successful one is put on the list with its record index
    and the path it returned. *)
Fixpoint download_phase (w : env) (completed : list task)
         (metadata : list article) (d : disk)
         (successful_downloads : list (nat * str))
  : list article * disk * list (nat * str) :=
  match completed with
  | [] => (metadata, d, successful_downloads)
  | t :: more =>
      let (result, d') := download_file w (task_url t) (task_path t) d in
      if success result
      then download_phase w more
             (store_path metadata (idx t) (path result)) d'
             (successful_downloads ++ [(idx t, path result)])
      else download_phase w more metadata d' successful_downloads
  end.

(** Lines 485-502: the files of the successful downloads mined in turn. *)
Fixpoint mine (r : reader) (successful_downloads : list (nat * str))
         (metadata : list article) : list article :=
  match successful_downloads with
  | [] => metadata
  | (i, file_path) :: more =>
      mine r more
           (store_mined metadata i (process_file_for_metadata r file_path))
  end.

(** [main] from line 374 on, the fragments being those found on the page:
    [None] when it stops for want of topics, otherwise the metadata it
    writes and the disk.  [schedule] puts the tasks in the order in which
    their downloads complete. *)
Definition main_from_fragments (get_text : str -> str) (w : env) (r : reader)
           (schedule : list task -> list task) (url volume_dir : str)
           (f : fragments) (d : disk) : option (list article * disk) :=
  if length (all_topics f) <? 1 then None
  else
    match correlate get_text url volume_dir f with
    | Raise _ => None
    | Ok (metadata, download_tasks) =>
        let '(metadata, d, successful_downloads) :=
          match download_tasks with
          | [] => (metadata, d, [])
          | _ :: _ =>
              download_phase w (schedule download_tasks) metadata d []
          end in
        Some (mine r successful_downloads metadata, d)
    end.

(** Two records agree on all that mining does not set. *)
Definition same_but_mined (a a' : article) : Prop :=
  title a' = title a /\ page_number a' = page_number a /\
  authors a' = authors a /\ abstract a' = abstract a /\
  file_path a' = file_path a.

(** The successful downloads among completed tasks, as the outcomes say. *)
Definition successes (w : env) (completed : list task) : list (nat * str) :=
  flat_map
    (fun t =>
       let o := outcome_of w (task_url t) (task_path t) in
       if success o then [(idx t, path o)] else [])
    completed.

(** A reader for which no file can be read. *)
Definition unreadable : reader :=
  Reader (fun _ => Raise (Exception (L "cannot open")))
         (fun _ => Raise (Exception (L "cannot open"))).

(* ================================================================== *)
(** * The words of a pattern *)

(** [lang r w]: [w] is a text the pattern [r] can consume.  A word boundary
    consumes nothing; where it holds depends on the text around, which this
    reading leaves out. *)
Fixpoint lang (r : Re.re) (w : str) : Prop :=
  match r with
  | Re.Eps => w = []
  | Re.Chr p => exists c, w = [c] /\ p c = true
  | Re.Rep _ lo p => lo <= length w /\ forallb p w = true
  | Re.Cat a b => exists u v, w = u ++ v /\ lang a u /\ lang b v
  | Re.Alt a b => lang a w \/ lang b w
  | Re.Opt a => w = [] \/ lang a w
  | Re.Grp a => lang a w
  | Re.Bnd => w = []
  end.

(** The text neither starts nor ends with white space. *)
Definition ends_plain (s : str) : Prop := starts_plain (rev s).
Definition trimmed (s : str) : Prop := starts_plain s /\ ends_plain s.

(** The shape of an address: a local part, an at sign, a domain, a dot and
    an ending of two characters or more. *)
Definition address_shape (e : str) : Prop :=
  exists l d t,
    e = l ++ "@"%char :: d ++ "."%char :: t /\
    l <> [] /\ forallb email_local l = true /\
    d <> [] /\ forallb email_domain d = true /\
    2 <= length t /\ forallb email_tld t = true.

(** [e] is a piece of [text]. *)
Definition piece_of (e text : str) : Prop := exists a b, text = a ++ e ++ b.

(** The 256 characters. *)
Definition all_chars : list ascii := map ascii_of_nat (seq 0 256).

(** The text holds a colon, in any case. *)
Definition has_colon (w : str) : Prop :=
  exists c, In c w /\ lower_chr c = ":"%char.

Definition only_colon (p : ascii -> bool) : bool :=
  forallb (fun c => implb (p c) (chr_eqb (lower_chr c) ":")) all_chars.

(** A check that every word of a pattern holds a colon: some part that
    every word goes through accepts nothing else. *)
Fixpoint needs_colon (r : Re.re) : bool :=
  match r with
  | Re.Chr p => only_colon p
  | Re.Rep _ lo p => (0 <? lo) && only_colon p
  | Re.Cat a b => needs_colon a || needs_colon b
  | Re.Alt a b => needs_colon a && needs_colon b
  | Re.Grp a => needs_colon a
  | _ => false
  end.

(** Every white space character of the text is a plain space that is not
    followed by white space. *)
Fixpoint single_spaces (u : str) : Prop :=
  match u with
  | [] => True
  | c :: t =>
      (is_space c = true -> c = " "%char /\ starts_plain t) /\ single_spaces t
  end.

(** The record has a download link. *)
Definition has_link (f : fragments) (i : nat) : bool :=
  nonempty (nth i (all_downloads f) []).

(** [starts_at r p]: the pattern [r] matches wherever a character of [p]
    stands.  [consuming r]: it never matches the empty text. *)
Definition starts_at (r : Re.re) (p : ascii -> bool) : Prop :=
  forall pv c t o,
    p c = true ->
    Re.m r (Re.St pv (c :: t) o None) (fun s' => Some s') <> None.

Definition consuming (r : Re.re) : Prop := forall w, lang r w -> w <> [].

(** A comma or a semicolon. *)
Definition is_separator (c : ascii) : bool := Re.one_of ",;" c.

(* ================================================================== *)
(** * Properties of the matcher *)

Module ReFacts.
Import Re.

Lemma sub_rebuilt r repl text :
  sub r repl text = rebuilt repl (all_matches r text).
Proof.
  unfold sub, rebuilt. destruct (all_matches r text); reflexivity.
Qed.

Lemma matches_none n r pv rs o :
  scan r pv rs o [] = None -> matches (S n) r pv rs o = ([], rs).
Proof. intros H; simpl; rewrite H; reflexivity. Qed.

Lemma rebuilt_some n r repl pv rs o f x xs :
  scan r pv rs o [] = Some f -> matched f = x :: xs ->
  rebuilt repl (matches (S n) r pv rs o)
  = before f ++ repl
    ++ rebuilt repl (matches n r (prev (after f)) (rest (after f)) (off (after f))).
Proof.
  intros H Hm. simpl. rewrite H, Hm.
  destruct (matches n r (prev (after f)) (rest (after f)) (off (after f))) as [fs tl].
  unfold rebuilt; simpl. rewrite <- !app_assoc. reflexivity.
Qed.

(** Every text is free of [p], or has a first character in [p]. *)
Lemma first_hit p (s : str) :
  none_of p s \/
  exists a c b, s = a ++ c :: b /\ none_of p a /\ p c = true.
Proof.
  induction s as [|x s IH].
  - left; reflexivity.
  - destruct (p x) eqn:Hx.
    + right. exists [], x, s. repeat split; auto.
    + destruct IH as [IH | (a & c & b & -> & Ha & Hc)].
      * left. unfold none_of in *; simpl; rewrite Hx, IH; reflexivity.
      * right. exists (x :: a), c, b. repeat split; auto.
        unfold none_of in *; simpl; rewrite Hx, Ha; reflexivity.
Qed.

(** Every text splits into its longest prefix in [p] and the rest. *)
Lemma longest_run p (s : str) :
  exists ws b, s = ws ++ b /\ all_of p ws /\ stops p b.
Proof.
  induction s as [|x s (ws & b & -> & Hws & Hb)].
  - exists [], []. repeat split.
  - destruct (p x) eqn:Hx.
    + exists (x :: ws), b. repeat split; auto.
      unfold all_of in *; simpl; rewrite Hx, Hws; reflexivity.
    + exists [], (x :: ws ++ b). repeat split; auto.
Qed.

Section OneClass.
Variable p : ascii -> bool.

Lemma scan_chr_none rs : forall pv o sk,
  none_of p rs -> scan (Chr p) pv rs o sk = None.
Proof.
  induction rs as [|x rs IH]; intros pv o sk H.
  - reflexivity.
  - unfold none_of in H; simpl in H. apply andb_prop in H as [Hx Hr].
    apply negb_true_iff in Hx. simpl. rewrite Hx. apply IH, Hr.
Qed.

Lemma scan_chr_some a c b : forall pv o sk,
  none_of p a -> p c = true ->
  scan (Chr p) pv (a ++ c :: b) o sk
  = Some (Found (rev sk ++ a) [c] None (St (Some c) b (S (o + length a)) None)).
Proof.
  induction a as [|x a IH]; intros pv o sk Ha Hc.
  - cbn -[Nat.sub]. rewrite Hc. cbn -[Nat.sub].
    replace (S o - o) with 1 by lia.
    rewrite app_nil_r, Nat.add_0_r. reflexivity.
  - unfold none_of in Ha; simpl in Ha. apply andb_prop in Ha as [Hx Ha].
    apply negb_true_iff in Hx. cbn -[Nat.sub]. rewrite Hx.
    rewrite IH by assumption. cbn. rewrite <- app_assoc. cbn.
    repeat f_equal. lia.
Qed.

Lemma rep0_greedy ws b : forall pv o g,
  all_of p ws -> stops p b ->
  rep0 true p pv (ws ++ b) o g (fun s' => Some s')
  = Some (St (after_run pv ws) b (o + length ws) g).
Proof.
  induction ws as [|x ws IH]; intros pv o g Hws Hb.
  - simpl. rewrite Nat.add_0_r. destruct b as [|y b]; [reflexivity|].
    simpl in Hb. simpl. rewrite Hb. reflexivity.
  - unfold all_of in Hws; simpl in Hws. apply andb_prop in Hws as [Hx Hws].
    simpl. rewrite Hx. rewrite IH by assumption. simpl.
    repeat f_equal. lia.
Qed.

Lemma scan_run_none rs : forall pv o sk,
  none_of p rs -> scan (Rep true 1 p) pv rs o sk = None.
Proof.
  induction rs as [|x rs IH]; intros pv o sk H.
  - reflexivity.
  - unfold none_of in H; simpl in H. apply andb_prop in H as [Hx Hr].
    apply negb_true_iff in Hx. simpl. rewrite Hx. apply IH, Hr.
Qed.

Lemma scan_run_some a c ws b : forall pv o sk,
  none_of p a -> p c = true -> all_of p ws -> stops p b ->
  scan (Rep true 1 p) pv (a ++ (c :: ws) ++ b) o sk
  = Some (Found (rev sk ++ a) (c :: ws) None
            (St (after_run (Some c) ws) b (S (o + length a) + length ws) None)).
Proof.
  induction a as [|x a IH]; intros pv o sk Ha Hc Hws Hb.
  - cbn -[Nat.sub firstn]. rewrite Hc. rewrite rep0_greedy by assumption.
    cbn -[Nat.sub firstn]. rewrite app_nil_r, Nat.add_0_r.
    replace (S (o + length ws) - o) with (length (c :: ws))
      by (cbn [length]; lia).
    change (c :: ws ++ b) with ((c :: ws) ++ b).
    rewrite firstn_app, firstn_all, Nat.sub_diag. simpl. rewrite app_nil_r.
    reflexivity.
  - unfold none_of in Ha; simpl in Ha. apply andb_prop in Ha as [Hx Ha].
    apply negb_true_iff in Hx. cbn -[Nat.sub firstn]. rewrite Hx.
    rewrite IH by assumption. cbn. rewrite <- app_assoc. cbn.
    repeat f_equal. lia.
Qed.

Lemma rebuilt_chr repl : forall n rs pv o,
  length rs < n ->
  rebuilt repl (matches n (Chr p) pv rs o)
  = flat_map (fun c => if p c then repl else [c]) rs.
Proof.
  induction n as [|n IH]; intros rs pv o Hn; [lia|].
  destruct (first_hit p rs) as [Hno | (a & c & b & -> & Ha & Hc)].
  - rewrite matches_none by (apply scan_chr_none, Hno).
    unfold rebuilt; simpl. clear Hn.
    induction rs as [|x rs IHrs]; [reflexivity|].
    unfold none_of in Hno; simpl in Hno. apply andb_prop in Hno as [Hx Hr].
    apply negb_true_iff in Hx. simpl. rewrite Hx. simpl. f_equal. auto.
  - rewrite (@rebuilt_some n (Chr p) repl pv _ o _ c [] (scan_chr_some b pv o [] Ha Hc) eq_refl).
    cbn [before after prev rest off rev app].
    rewrite IH by (rewrite length_app in Hn; simpl in Hn; lia).
    rewrite flat_map_app. simpl. rewrite Hc. f_equal.
    clear Hn. induction a as [|x a IHa]; [reflexivity|].
    unfold none_of in Ha; simpl in Ha. apply andb_prop in Ha as [Hx Ha].
    apply negb_true_iff in Hx. simpl. rewrite Hx. simpl. f_equal. auto.
Qed.

End OneClass.

(** ** The fuel of the scan is enough *)

Lemma reach_refl s : reach s s.
Proof. exists []. split; [reflexivity | simpl; lia]. Qed.

Lemma reach_trans s1 s2 s3 : reach s1 s2 -> reach s2 s3 -> reach s1 s3.
Proof.
  intros (w & H1 & O1) (v & H2 & O2). exists (w ++ v).
  rewrite H1, H2, O2, O1, length_app, app_assoc. split; [reflexivity | lia].
Qed.

Lemma reach_step pv c t o g s' :
  reach (St (Some c) t (S o) g) s' -> reach (St pv (c :: t) o g) s'.
Proof.
  intros (w & H & O). cbn [rest off] in *. exists (c :: w).
  cbn [rest off app length]. rewrite H, O. split; [reflexivity | lia].
Qed.

Lemma or_else_some {A} (a b : option A) x :
  or_else a b = Some x -> a = Some x \/ b = Some x.
Proof. destruct a; simpl; auto. Qed.

Section Reach.
Variable A : Type.

Lemma rep0_reach g p rs : forall pv o gr (k : st -> option A) x,
  rep0 g p pv rs o gr k = Some x ->
  exists s', reach (St pv rs o gr) s' /\ k s' = Some x.
Proof.
  induction rs as [|c t IH]; intros pv o gr k x H.
  - exists (St pv [] o gr). split; [apply reach_refl | exact H].
  - cbn [rep0] in H. destruct (p c).
    + assert (rep0 g p (Some c) t (S o) gr k = Some x
              \/ k (St pv (c :: t) o gr) = Some x) as [H1 | H1]
        by (destruct g; apply or_else_some in H; tauto).
      * destruct (IH _ _ _ _ _ H1) as (s' & Hr & Hk).
        exists s'. split; [apply reach_step, Hr | exact Hk].
      * eexists. split; [apply reach_refl | exact H1].
    + eexists. split; [apply reach_refl | exact H].
Qed.

Lemma rep_reach g p lo : forall s (k : st -> option A) x,
  rep g p lo s k = Some x -> exists s', reach s s' /\ k s' = Some x.
Proof.
  induction lo as [|lo IH]; intros [pv rs o gr] k x H.
  - apply rep0_reach in H. exact H.
  - cbn [rep rest off grp] in H. destruct rs as [|c t]; [discriminate|].
    destruct (p c); [|discriminate].
    destruct (IH _ _ _ H) as (s' & Hr & Hk).
    exists s'. split; [apply reach_step, Hr | exact Hk].
Qed.

Lemma m_reach r : forall s (k : st -> option A) x,
  m r s k = Some x -> exists s', reach s s' /\ k s' = Some x.
Proof.
  induction r as [|p|g lo p|a IHa b IHb|a IHa b IHb|a IHa|a IHa|];
    intros s k x H; cbn [m] in H.
  - exists s. split; [apply reach_refl | exact H].
  - destruct s as [pv rs o gr]. cbn [rest off grp] in H.
    destruct rs as [|c t]; [discriminate|].
    destruct (p c); [|discriminate].
    eexists. split; [apply reach_step, reach_refl | exact H].
  - apply rep_reach in H. exact H.
  - destruct (IHa _ _ _ H) as (s1 & R1 & H1).
    destruct (IHb _ _ _ H1) as (s2 & R2 & H2).
    exists s2. split; [eapply reach_trans; eauto | exact H2].
  - apply or_else_some in H as [H | H]; eauto.
  - apply or_else_some in H as [H | H]; [eauto|].
    exists s. split; [apply reach_refl | exact H].
  - destruct (IHa _ _ _ H) as (s1 & (w & R1 & O1) & H1).
    eexists. split; [|exact H1]. exists w. cbn [rest off]. auto.
  - destruct (xorb _ _); [|discriminate].
    exists s. split; [apply reach_refl | exact H].
Qed.

End Reach.

(** A match is a piece of the text scanned, followed by the text left. *)
Lemma scan_parts r rs : forall pv o sk f,
  scan r pv rs o sk = Some f ->
  exists a, rs = a ++ matched f ++ rest (after f).
Proof.
  induction rs as [|c t IH]; intros pv o sk f H; cbn [scan] in H.
  - destruct (m r (St pv [] o None) (fun s' => Some s')) as [s'|] eqn:E;
      [|discriminate].
    apply m_reach in E as (s1 & (w & R & O) & [= ->]).
    injection H as <-. cbn [rest off matched after] in *.
    exists []. destruct w; [|discriminate]. simpl in *. rewrite <- R.
    destruct (off s' - o); reflexivity.
  - destruct (m r (St pv (c :: t) o None) (fun s' => Some s')) as [s'|] eqn:E.
    + apply m_reach in E as (s1 & (w & R & O) & [= ->]).
      injection H as <-. cbn [rest off matched after] in *.
      exists []. rewrite O, R. replace (o + length w - o) with (length w) by lia.
      rewrite firstn_app, Nat.sub_diag, firstn_all. simpl.
      rewrite app_nil_r. reflexivity.
    + destruct (IH _ _ _ _ H) as (a & ->). exists (c :: a). reflexivity.
Qed.

(** Any fuel above the length of the text gives the same matches. *)
Lemma matches_fuel r : forall n n' pv rs o,
  length rs < n -> length rs < n' ->
  matches n r pv rs o = matches n' r pv rs o.
Proof.
  induction n as [|n IH]; intros [|n'] pv rs o Hn Hn'; try lia.
  cbn [matches]. destruct (scan r pv rs o []) as [f|] eqn:E; [|reflexivity].
  destruct (matched f) as [|x xs] eqn:Em; [reflexivity|].
  destruct (scan_parts _ _ _ _ _ E) as (a & Hrs).
  rewrite Em in Hrs.
  apply (f_equal (@length ascii)) in Hrs.
  rewrite !length_app in Hrs. cbn [length] in Hrs.
  rewrite (IH n') by lia. reflexivity.
Qed.

Lemma findall_fuel r text n :
  length text < n ->
  map matched (fst (matches n r None text 0)) = findall r text.
Proof.
  intros H. unfold findall, all_matches.
  rewrite (@matches_fuel r n (S (length text))) by lia. reflexivity.
Qed.

Lemma sub_chr p repl text :
  sub (Chr p) repl text = flat_map (fun c => if p c then repl else [c]) text.
Proof. rewrite sub_rebuilt. apply rebuilt_chr. lia. Qed.

Lemma sub_chr_remove p text :
  sub (Chr p) [] text = filter (fun c => negb (p c)) text.
Proof.
  rewrite sub_chr. induction text as [|x t IH]; [reflexivity|].
  simpl. destruct (p x); simpl; rewrite IH; reflexivity.
Qed.

Lemma rebuilt_spaces repl : forall n rs pv o,
  length rs < n ->
  runs_replaced repl rs (rebuilt repl (matches n (Rep true 1 is_space) pv rs o)).
Proof.
  induction n as [|n IH]; intros rs pv o Hn; [lia|].
  destruct (first_hit is_space rs) as [Hno | (a & c & b0 & -> & Ha & Hc)].
  - rewrite matches_none by (apply scan_run_none, Hno).
    unfold rebuilt; simpl. apply rr_plain, Hno.
  - destruct (longest_run is_space b0) as (ws & b & -> & Hws & Hb).
    change (a ++ c :: ws ++ b) with (a ++ (c :: ws) ++ b) in *.
    rewrite (@rebuilt_some n _ repl pv _ o _ c ws
               (scan_run_some c b pv o [] Ha Hc Hws Hb) eq_refl).
    cbn [before after prev rest off rev].
    rewrite app_nil_l. apply rr_run; auto.
    + discriminate.
    + unfold all_space; simpl. rewrite Hc. exact Hws.
    + apply IH. rewrite !length_app in Hn. simpl in Hn. lia.
Qed.

Lemma sub_spaces repl text :
  runs_replaced repl text (sub (Rep true 1 is_space) repl text).
Proof. rewrite sub_rebuilt. apply rebuilt_spaces. lia. Qed.

End ReFacts.

(* ================================================================== *)
(** * The sanitized file name *)

Lemma no_space_In s c : no_space s -> In c s -> is_space c = false.
Proof.
  unfold no_space. rewrite forallb_forall. intros H Hin.
  apply negb_true_iff, H, Hin.
Qed.

Lemma runs_replaced_In repl s s' c :
  runs_replaced repl s s' -> In c s' ->
  In c repl \/ (In c s /\ is_space c = false).
Proof.
  induction 1 as [a Ha | a ws b b' Ha Hne Hws Hb Hr IH]; intros Hin.
  - right. split; [assumption | eapply no_space_In; eauto].
  - rewrite !in_app_iff in Hin. destruct Hin as [Hin | [Hin | Hin]].
    + right. split; [rewrite in_app_iff; auto | eapply no_space_In; eauto].
    + left; assumption.
    + destruct (IH Hin) as [? | [? ?]]; [left; assumption|].
      right. split; [rewrite !in_app_iff; auto | assumption].
Qed.

Lemma In_firstn_In (n : nat) (s : str) c : In c (firstn n s) -> In c s.
Proof.
  revert n; induction s as [|x s IH]; intros [|n]; simpl; try tauto.
  intros [-> | H]; [left; reflexivity | right; eauto].
Qed.

Lemma sanitize_filename_firstn t :
  sanitize_filename t = firstn 200 (uncut t).
Proof.
  unfold sanitize_filename, uncut.
  destruct (100 <? _) eqn:H; [reflexivity|].
  apply Nat.ltb_ge in H. symmetry. apply firstn_all2. lia.
Qed.

Lemma uncut_In t c :
  In c (uncut t) -> c = "_"%char \/ (In c t /\ is_invalid c = false /\ is_space c = false).
Proof.
  unfold uncut, pat_invalid, pat_spaces. intros H.
  destruct (@runs_replaced_In _ _ _ c (ReFacts.sub_spaces (L "_") _) H)
    as [Hu | [Hin Hs]].
  - left. simpl in Hu. destruct Hu as [<- | []]. reflexivity.
  - right. rewrite ReFacts.sub_chr_remove in Hin.
    apply filter_In in Hin as [Hin Hv]. apply negb_true_iff in Hv. auto.
Qed.

(** C2. For every title, the sanitized name holds none of the characters
    [\ / ( ) . , * ? : quote < > |]; it is the title without those
    characters, every maximal run of white space replaced by one underscore,
    cut to its first 200 characters; it holds no white space and is at most
    200 characters long. *)
Theorem sanitize_filename_spec (t : str) :
  (forall c, In c invalid_chars -> ~ In c (sanitize_filename t)) /\
  (exists full,
      runs_replaced (L "_") (without_invalid t) full /\
      sanitize_filename t = firstn 200 full) /\
  (forall c, In c (sanitize_filename t) -> is_space c = false) /\
  length (sanitize_filename t) <= 200.
Proof.
  rewrite sanitize_filename_firstn. repeat split.
  - intros c Hc Hin. apply In_firstn_In, uncut_In in Hin.
    destruct Hin as [-> | (_ & Hv & _)].
    + revert Hc. vm_compute. intuition discriminate.
    + unfold is_invalid, has_chr in Hv.
      assert (existsb (chr_eqb c) invalid_chars = true); [|congruence].
      apply existsb_exists. exists c. split; [assumption|].
      apply Ascii.eqb_refl.
  - exists (uncut t). split; [|reflexivity].
    unfold uncut, without_invalid, pat_invalid.
    rewrite ReFacts.sub_chr_remove. apply ReFacts.sub_spaces.
  - intros c Hin. apply In_firstn_In, uncut_In in Hin.
    destruct Hin as [-> | (_ & _ & Hs)]; [reflexivity | assumption].
  - apply firstn_le_length.
Qed.

(* ================================================================== *)
(** * Splitting and joining *)

Lemma split_nonempty sep s : Py.split sep s <> [].
Proof.
  destruct s as [|c t]; simpl; [discriminate|].
  destruct (chr_eqb c sep); [discriminate|].
  destruct (Py.split sep t); discriminate.
Qed.

Lemma split_without sep s :
  has_chr sep s = false -> Py.split sep s = [s].
Proof.
  induction s as [|c t IH]; [reflexivity|].
  unfold has_chr; simpl. intros H. apply orb_false_iff in H as [Hc Ht].
  unfold chr_eqb in *. rewrite Ascii.eqb_sym, Hc.
  rewrite (IH Ht). reflexivity.
Qed.

Lemma split_with sep s :
  has_chr sep s = true -> exists w w' ws, Py.split sep s = w :: w' :: ws.
Proof.
  induction s as [|c t IH]; [discriminate|].
  unfold has_chr; simpl. intros H.
  destruct (chr_eqb c sep) eqn:Hc.
  - destruct (Py.split sep t) as [|w ws] eqn:Ht;
      [exfalso; eapply split_nonempty; eauto|].
    eauto.
  - unfold chr_eqb in *. rewrite Ascii.eqb_sym, Hc in H. simpl in H.
    destruct (IH H) as (w & w' & ws & ->). eauto.
Qed.

Lemma hd_split sep s : hd [] (Py.split sep s) = before_first sep s.
Proof.
  induction s as [|c t IH]; [reflexivity|].
  simpl. destruct (chr_eqb c sep); [reflexivity|].
  destruct (Py.split sep t); simpl in *; rewrite <- IH; reflexivity.
Qed.

Lemma after_last_without sep s : has_chr sep s = false -> after_last sep s = s.
Proof.
  destruct s as [|c t]; [reflexivity|].
  unfold has_chr; simpl. intros H. apply orb_false_iff in H as [Hc Ht].
  unfold has_chr. rewrite Ht. unfold chr_eqb in *.
  rewrite Ascii.eqb_sym, Hc. reflexivity.
Qed.

Lemma last_split sep s : last (Py.split sep s) [] = after_last sep s.
Proof.
  induction s as [|c t IH]; [reflexivity|].
  cbn [Py.split after_last].
  destruct (has_chr sep t) eqn:Ht.
  - destruct (split_with _ _ Ht) as (w & w' & ws & Hs).
    rewrite <- IH, Hs. destruct (chr_eqb c sep); reflexivity.
  - rewrite (split_without _ _ Ht).
    destruct (chr_eqb c sep); reflexivity.
Qed.

Lemma join_cons sep c w ws :
  Py.join sep ((c :: w) :: ws) = c :: Py.join sep (w :: ws).
Proof. destruct ws; reflexivity. Qed.

Lemma join_removelast_split sep s :
  Py.join [sep] (removelast (Py.split sep s)) = before_last sep s.
Proof.
  induction s as [|c t IH]; [reflexivity|].
  cbn [Py.split before_last].
  destruct (has_chr sep t) eqn:Ht.
  - destruct (split_with _ _ Ht) as (w & w' & ws & Hs).
    rewrite <- IH, Hs. destruct (chr_eqb c sep) eqn:Hc.
    + apply Ascii.eqb_eq in Hc. subst c. reflexivity.
    + change (removelast ((c :: w) :: w' :: ws))
        with ((c :: w) :: removelast (w' :: ws)).
      rewrite join_cons. reflexivity.
  - rewrite (split_without _ _ Ht).
    destruct (chr_eqb c sep); reflexivity.
Qed.

Lemma join_firstn_split sep s : forall k,
  Py.join [sep] (firstn (S k) (Py.split sep s)) = before_kth sep (S k) s.
Proof.
  induction s as [|c t IH]; intros k; [destruct k; reflexivity|].
  cbn [Py.split before_kth].
  destruct (chr_eqb c sep) eqn:Hc.
  - apply Ascii.eqb_eq in Hc. subst c. destruct k as [|k]; [reflexivity|].
    rewrite <- IH. cbn [firstn].
    destruct (Py.split sep t) as [|w ws] eqn:Hs;
      [exfalso; eapply split_nonempty; eauto|].
    reflexivity.
  - rewrite <- IH.
    destruct (Py.split sep t) as [|w ws] eqn:Hs;
      [exfalso; eapply split_nonempty; eauto|].
    cbn [firstn]. rewrite join_cons. reflexivity.
Qed.

Lemma str_eqb_eq a : forall b, str_eqb a b = true <-> a = b.
Proof.
  induction a as [|x a IH]; intros [|y b]; simpl; split; intros H;
    try reflexivity; try discriminate.
  - apply andb_prop in H as [Hx Ha]. apply Ascii.eqb_eq in Hx.
    apply IH in Ha. congruence.
  - injection H as -> ->. unfold chr_eqb. rewrite Ascii.eqb_refl.
    apply IH. reflexivity.
Qed.

(* ================================================================== *)
(** * The file type *)

Lemma content_type_ext ct :
  get_file_extension_from_content_type ct = content_type_says ct.
Proof. destruct ct; reflexivity. Qed.

Lemma url_ext url : get_file_extension_from_url url = url_says url.
Proof.
  unfold get_file_extension_from_url, url_says.
  rewrite hd_split, last_split.
  destruct (has_chr "." (before_first "?" url)); [|reflexivity].
  cbn [existsb andb]. rewrite orb_false_r. reflexivity.
Qed.

Lemma url_says_known url e : url_says url = Some e -> e = L "pdf" \/ e = L "docx".
Proof.
  unfold url_says.
  destruct (has_chr _ _); [|discriminate]. cbn [andb].
  destruct (str_eqb _ (L "pdf")) eqn:H1.
  - intros [= <-]. left. apply str_eqb_eq, H1.
  - destruct (str_eqb _ (L "docx")) eqn:H2; [|discriminate].
    intros [= <-]. right. apply str_eqb_eq, H2.
Qed.

Lemma content_type_says_known ct e :
  content_type_says ct = Some e -> e = L "pdf" \/ e = L "docx".
Proof.
  unfold content_type_says.
  repeat match goal with |- context [if ?b then _ else _] => destruct b end;
    intros [= <-]; auto.
Qed.

Lemma file_ext_of_resolved ct url :
  file_ext_of ct url = resolved_extension ct url.
Proof.
  unfold file_ext_of, resolved_extension.
  rewrite content_type_ext, url_ext.
  destruct (content_type_says ct) as [e|] eqn:Hc.
  - destruct (content_type_says_known _ Hc) as [-> | ->]; reflexivity.
  - destruct (url_says url) as [e|] eqn:Hu; [|reflexivity].
    destruct (url_says_known _ Hu) as [-> | ->]; reflexivity.
Qed.

Lemma file_ext_of_known ct url :
  file_ext_of ct url = L "pdf" \/ file_ext_of ct url = L "docx".
Proof.
  rewrite file_ext_of_resolved. unfold resolved_extension.
  destruct (content_type_says ct) as [e|] eqn:Hc.
  - eapply content_type_says_known; eauto.
  - destruct (url_says url) as [e|] eqn:Hu; [|left; reflexivity].
    eapply url_says_known; eauto.
Qed.


Example content_type_wins :
  file_ext_of wordprocessingml (L "http://x/a.pdf") = L "docx"
  /\ file_ext_of (L "text/html") (L "http://x/a.DOCX?v=1.2") = L "docx"
  /\ file_ext_of [] (L "http://x/download") = L "pdf"
  /\ file_ext_of (L "Application/PDF; charset=x") (L "http://x/a.docx") = L "pdf".
Proof. repeat split. Qed.

(* ================================================================== *)
(** * Absolute links *)

(** What the code computes: the page's URL before its third slash for a
    link that starts with a slash, before its last slash for any other
    relative link. *)
Lemma absolute_link_closed (url href : str) :
  absolute_link url href =
    if startswith (L "http") href then href
    else if startswith (L "/") href then before_kth "/" 3 url ++ href
    else before_last "/" url ++ L "/" ++ href.
Proof.
  unfold absolute_link.
  destruct (startswith (L "http") href); cbn [negb]; [reflexivity|].
  change (L "/") with ["/"%char].
  rewrite join_firstn_split, join_removelast_split. reflexivity.
Qed.

Lemma has_chr_app_iff c a b : has_chr c (a ++ b) = has_chr c a || has_chr c b.
Proof. unfold has_chr. apply existsb_app. Qed.

Lemma before_kth_pass sep k a s :
  has_chr sep a = false -> before_kth sep k (a ++ s) = a ++ before_kth sep k s.
Proof.
  induction a as [|x a IH]; intros H; [reflexivity|].
  unfold has_chr in H. cbn [existsb] in H.
  apply orb_false_iff in H as [Hx Ha].
  cbn [app before_kth]. unfold chr_eqb in *.
  rewrite Ascii.eqb_sym, Hx. f_equal. apply IH, Ha.
Qed.

Lemma before_last_pass sep a b :
  has_chr sep b = true -> before_last sep (a ++ b) = a ++ before_last sep b.
Proof.
  intros Hb. induction a as [|x a IH]; [reflexivity|].
  cbn [app before_last]. rewrite has_chr_app_iff, Hb, orb_true_r.
  f_equal. exact IH.
Qed.

Lemma after_scheme_found scheme rest :
  has_chr "/" scheme = false ->
  after_scheme (scheme ++ L "://" ++ rest) = Some (scheme, rest).
Proof.
  induction scheme as [|c scheme IH]; intros H; [reflexivity|].
  unfold has_chr in H. cbn [existsb] in H.
  apply orb_false_iff in H as [Hc Hs].
  cbn [app after_scheme].
  assert (E : startswith (L "://") (c :: scheme ++ L "://" ++ rest) = false).
  { change (L "://") with [":"; "/"; "/"]%char. cbn [startswith].
    destruct scheme as [|x scheme].
    - cbn [app]. destruct (chr_eqb ":" c); reflexivity.
    - unfold has_chr in Hs. cbn [existsb] in Hs.
      apply orb_false_iff in Hs as [Hx _]. cbn [app startswith].
      rewrite Hx. apply andb_false_r. }
  rewrite E, (IH Hs). reflexivity.
Qed.

Lemma upto_chr_pass stop a c t :
  (forall x, In x a -> stop x = false) -> stop c = true ->
  upto_chr stop (a ++ c :: t) = a /\ from_chr stop (a ++ c :: t) = c :: t.
Proof.
  intros Ha Hc. induction a as [|x a IH].
  - cbn. rewrite Hc. auto.
  - cbn [app upto_chr from_chr]. rewrite (Ha x (or_introl eq_refl)).
    destruct IH as [-> ->]; [intros y Hy; apply Ha; right; exact Hy|]. auto.
Qed.

Lemma upto_chr_all stop a :
  (forall x, In x a -> stop x = false) -> upto_chr stop a = a.
Proof.
  induction a as [|x a IH]; intros Ha; [reflexivity|].
  cbn [upto_chr]. rewrite (Ha x (or_introl eq_refl)). f_equal.
  apply IH. intros y Hy. apply Ha. right. exact Hy.
Qed.

(** On a page whose URL is a scheme, a host and a path with at least one
    slash, without query or fragment, the code does what the page's parts
    call for: a link starting with a slash goes after the scheme and host,
    any other relative link after the directory path and a slash. *)
Lemma absolute_link_on_paths (scheme host more href : str) :
  has_chr "/" scheme = false ->
  (forall c, In c host -> ends_host c = false) ->
  (forall c, In c more -> ends_path c = false) ->
  absolute_link (scheme ++ L "://" ++ host ++ "/"%char :: more) href =
    if startswith (L "http") href then href
    else if startswith (L "/") href
         then scheme_and_host (scheme ++ L "://" ++ host ++ "/"%char :: more)
              ++ href
         else directory_path (scheme ++ L "://" ++ host ++ "/"%char :: more)
              ++ L "/" ++ href.
Proof.
  intros Hs Hh Hm. rewrite absolute_link_closed.
  unfold directory_path, scheme_and_host, path_of.
  rewrite (after_scheme_found _ (host ++ "/"%char :: more) Hs).
  destruct (upto_chr_pass ends_host host "/" more Hh eq_refl) as [-> ->].
  assert (Hhost : has_chr "/" host = false).
  { apply Bool.not_true_is_false. intros E. unfold has_chr in E.
    apply existsb_exists in E as (x & Hx & E). apply Ascii.eqb_eq in E.
    subst x. specialize (Hh _ Hx). discriminate. }
  assert (Hp : upto_chr ends_path ("/"%char :: more) = "/"%char :: more).
  { apply upto_chr_all. intros x [<- | Hx]; [reflexivity | auto]. }
  rewrite Hp.
  assert (H3 : before_kth "/" 3 (scheme ++ L "://" ++ host ++ "/"%char :: more)
               = scheme ++ L "://" ++ host).
  { rewrite before_kth_pass by assumption.
    change (L "://" ++ host ++ "/"%char :: more)
      with (":"%char :: "/"%char :: "/"%char :: (host ++ "/"%char :: more)).
    cbn [before_kth chr_eqb Ascii.eqb Bool.eqb]. cbn.
    rewrite before_kth_pass by assumption. cbn.
    rewrite app_nil_r. reflexivity. }
  assert (Hl : before_last "/" (scheme ++ L "://" ++ host ++ "/"%char :: more)
               = scheme ++ L "://" ++ host ++ before_last "/" ("/"%char :: more)).
  { rewrite !app_assoc. rewrite before_last_pass; [reflexivity|].
    reflexivity. }
  rewrite H3, Hl. rewrite <- !app_assoc. reflexivity.
Qed.

(** C7. The links the code builds on two pages it can be given.  On a page
    whose URL has no path, a relative link loses the host: the part before
    the last slash of the URL is [https:/], not the page's directory path.
    On a page whose query holds slashes, a link starting with a slash is
    put after part of the query, not after the scheme and host. *)
Theorem absolute_link_misses_bare_host :
  absolute_link (L "https://www.soilsjournalnigeria.com") (L "files/a.pdf")
  = L "https://files/a.pdf"
  /\ directory_path (L "https://www.soilsjournalnigeria.com") ++ L "/" ++ L "files/a.pdf"
     = L "https://www.soilsjournalnigeria.com/files/a.pdf"
  /\ absolute_link (L "http://site.org?next=/a/b") (L "/x.pdf")
     = L "http://site.org?next=/x.pdf"
  /\ scheme_and_host (L "http://site.org?next=/a/b") ++ L "/x.pdf"
     = L "http://site.org/x.pdf".
Proof. repeat split. Qed.

Example absolute_link_examples :
  absolute_link (L "https://site.org/vol/issue.php") (L "http://cdn/a.pdf")
    = L "http://cdn/a.pdf"
  /\ absolute_link (L "https://site.org/vol/issue.php") (L "/files/a.pdf")
    = L "https://site.org/files/a.pdf"
  /\ absolute_link (L "https://site.org/vol/issue.php") (L "files/a.pdf")
    = L "https://site.org/vol/files/a.pdf"
  /\ scheme_and_host (L "https://site.org/vol/issue.php") = L "https://site.org"
  /\ directory_path (L "https://site.org/vol/issue.php") = L "https://site.org/vol"
  /\ directory_path (L "https://site.org/vol/issue.php?back=/a/b#top")
     = L "https://site.org/vol"
  /\ directory_path (L "https://site.org") = L "https://site.org".
Proof. repeat split. Qed.

(* ================================================================== *)
(** * Paths *)

Module OsPathFacts.
Import OsPath.

Lemma has_chr_app c a b : has_chr c (a ++ b) = has_chr c a || has_chr c b.
Proof. unfold has_chr. apply existsb_app. Qed.

Lemma has_chr_cons c x s :
  has_chr c (x :: s) = chr_eqb c x || has_chr c s.
Proof. reflexivity. Qed.

Lemma rfind_from_absent c s : forall i acc,
  has_chr c s = false -> rfind_from c s i acc = acc.
Proof.
  induction s as [|x s IH]; intros i acc H; [reflexivity|].
  rewrite has_chr_cons in H. apply orb_false_iff in H as [Hx Hs].
  simpl. unfold chr_eqb in *. rewrite Ascii.eqb_sym, Hx. apply IH, Hs.
Qed.

Lemma rfind_from_last c a b : forall i acc,
  has_chr c b = false ->
  rfind_from c (a ++ c :: b) i acc = (i + Z.of_nat (length a))%Z.
Proof.
  induction a as [|x a IH]; intros i acc Hb.
  - simpl. unfold chr_eqb. rewrite Ascii.eqb_refl.
    rewrite rfind_from_absent by assumption. lia.
  - simpl app. cbn [rfind_from]. rewrite IH by assumption.
    cbn [length]. lia.
Qed.

Lemma rfind_from_lower c s : forall i acc,
  (acc < i)%Z -> (acc <= rfind_from c s i acc)%Z.
Proof.
  induction s as [|x s IH]; intros i acc H; simpl; [lia|].
  destruct (chr_eqb x c).
  - specialize (IH (i + 1)%Z i). lia.
  - specialize (IH (i + 1)%Z acc). lia.
Qed.

Lemma rfind_from_reaches c s : forall n i acc,
  (acc < i)%Z -> has_chr c (skipn n s) = true ->
  (i + Z.of_nat n <= rfind_from c s i acc)%Z.
Proof.
  induction s as [|x s IH]; intros n i acc Hacc H.
  - destruct n; discriminate.
  - destruct n as [|n].
    + cbn [skipn] in H. rewrite has_chr_cons in H. cbn [rfind_from].
      unfold chr_eqb in *. rewrite Ascii.eqb_sym in H.
      destruct (Ascii.eqb x c).
      * pose proof (@rfind_from_lower c s (i + 1)%Z i). lia.
      * cbn [orb] in H. specialize (IH 0 (i + 1)%Z acc).
        cbn [skipn] in IH. specialize (IH ltac:(lia) H). lia.
    + cbn [skipn] in H. cbn [rfind_from].
      destruct (chr_eqb x c).
      * specialize (IH n (i + 1)%Z i ltac:(lia) H). lia.
      * specialize (IH n (i + 1)%Z acc ltac:(lia) H). lia.
Qed.

Lemma rfind_absent c s : has_chr c s = false -> rfind c s = (-1)%Z.
Proof. apply rfind_from_absent. Qed.

Lemma rfind_last c a b :
  has_chr c b = false -> rfind c (a ++ c :: b) = Z.of_nat (length a).
Proof. intros H. unfold rfind. rewrite rfind_from_last by assumption. lia. Qed.

(** No [c] from an index past the last one. *)
Lemma rfind_past c s (i : Z) :
  (rfind c s < i)%Z -> has_chr c (from i s) = false.
Proof.
  intros H. unfold from.
  destruct (has_chr c (skipn (Z.to_nat i) s)) eqn:E; [|reflexivity].
  pose proof (@rfind_from_reaches c s (Z.to_nat i) 0%Z (-1)%Z ltac:(lia) E).
  pose proof (@rfind_from_lower c s 0%Z (-1)%Z ltac:(lia)).
  unfold rfind in H. lia.
Qed.

Lemma last_occurrence c s :
  has_chr c s = false \/
  exists a b, s = a ++ c :: b /\ has_chr c b = false.
Proof.
  induction s as [|x s IH]; [left; reflexivity|].
  destruct IH as [Hs | (a & b & -> & Hb)].
  - destruct (chr_eqb c x) eqn:Hx.
    + right. apply Ascii.eqb_eq in Hx. subst x. exists [], s. auto.
    + left. rewrite has_chr_cons, Hx, Hs. reflexivity.
  - right. exists (x :: a), b. auto.
Qed.

Lemma upto_app a b : upto (Z.of_nat (length a)) (a ++ b) = a.
Proof.
  unfold upto. rewrite Nat2Z.id, firstn_app, Nat.sub_diag, firstn_all.
  simpl. apply app_nil_r.
Qed.

Lemma from_app a b : from (Z.of_nat (length a)) (a ++ b) = b.
Proof.
  unfold from. rewrite Nat2Z.id, skipn_app, Nat.sub_diag, skipn_all.
  reflexivity.
Qed.

(** The extension split off is the text from the last dot on, and that dot
    comes after every slash. *)
Lemma splitext_parts p :
  fst (splitext p) ++ snd (splitext p) = p /\
  has_chr "/" (snd (splitext p)) = false /\
  (snd (splitext p) = [] \/
   exists e, snd (splitext p) = "."%char :: e /\ has_chr "." e = false).
Proof.
  unfold splitext.
  destruct (_ && _) eqn:C; cbn [fst snd].
  2: { rewrite app_nil_r. auto. }
  apply andb_prop in C as [Hlt _]. apply Z.ltb_lt in Hlt.
  split; [apply firstn_skipn|]. split; [apply rfind_past, Hlt|].
  right. destruct (last_occurrence "." p) as [Hno | (a & b & -> & Hb)].
  - rewrite (rfind_absent _ _ Hno) in Hlt.
    pose proof (@rfind_from_lower "/" p 0%Z (-1)%Z ltac:(lia)).
    unfold rfind in Hlt. lia.
  - rewrite (rfind_last _ a _ Hb), from_app. eauto.
Qed.

Lemma endswith_slash a :
  endswith (L "/") a = true -> exists q, a = q ++ L "/".
Proof.
  unfold endswith. change (rev (L "/")) with ["/"%char].
  destruct (rev a) as [|x r] eqn:E; [discriminate|].
  cbn [startswith]. unfold chr_eqb.
  intros H. apply andb_prop in H as [Hx _]. apply Ascii.eqb_eq in Hx. subst x.
  exists (rev r). rewrite <- (rev_involutive a), E. reflexivity.
Qed.

Lemma join_name a b :
  startswith (L "/") b = false -> join a b = dir_prefix a ++ b.
Proof.
  intros H. unfold join, dir_prefix. rewrite H.
  destruct a as [|x a]; [reflexivity|].
  destruct (endswith _ _); [reflexivity|]. rewrite <- app_assoc. reflexivity.
Qed.

Lemma dir_prefix_shape a :
  dir_prefix a = [] \/ exists q, dir_prefix a = q ++ L "/".
Proof.
  unfold dir_prefix. destruct a as [|x a]; [left; reflexivity|].
  destruct (endswith _ _) eqn:E; right; [apply endswith_slash, E | eauto].
Qed.

(** A file name with one dot, after a directory prefix, splits at that dot. *)
Lemma splitext_name pre c stem e :
  (pre = [] \/ exists q, pre = q ++ L "/") ->
  has_chr "/" (c :: stem) = false -> has_chr "." (c :: stem) = false ->
  has_chr "/" e = false -> has_chr "." e = false ->
  splitext (pre ++ (c :: stem) ++ "."%char :: e)
  = (pre ++ c :: stem, "."%char :: e).
Proof.
  intros Hpre Hs1 Hs2 He1 He2.
  assert (Hdot : rfind "." (pre ++ (c :: stem) ++ "."%char :: e)
                 = Z.of_nat (length (pre ++ c :: stem))).
  { rewrite app_assoc. apply rfind_last, He2. }
  assert (Hsep : (rfind "/" (pre ++ (c :: stem) ++ "."%char :: e) + 1)%Z
                 = Z.of_nat (length pre)).
  { destruct Hpre as [-> | (q & ->)].
    - rewrite rfind_absent; [reflexivity|].
      rewrite app_nil_l, has_chr_app, Hs1. cbn [orb].
      rewrite has_chr_cons, He1. reflexivity.
    - change (L "/") with ["/"%char]. rewrite <- app_assoc.
      change (["/"%char] ++ (c :: stem) ++ "."%char :: e)
        with ("/"%char :: ((c :: stem) ++ "."%char :: e)).
      rewrite rfind_last.
      + rewrite length_app. simpl. lia.
      + rewrite has_chr_app, Hs1. cbn [orb].
        rewrite has_chr_cons, He1. reflexivity. }
  unfold splitext. rewrite Hdot, Hsep.
  replace (rfind "/" (pre ++ (c :: stem) ++ "."%char :: e))
    with (Z.of_nat (length pre) - 1)%Z by lia.
  assert (Hlt : (Z.of_nat (length pre) - 1 <? Z.of_nat (length (pre ++ c :: stem)))%Z = true).
  { apply Z.ltb_lt. rewrite length_app. lia. }
  rewrite Hlt. cbn [andb].
  replace (Z.to_nat (Z.of_nat (length (pre ++ c :: stem)) - Z.of_nat (length pre)))
    with (S (length stem)) by (rewrite length_app; simpl; lia).
  cbn [finds_non_dot]. rewrite from_app. cbn [app].
  rewrite has_chr_cons in Hs2. apply orb_false_iff in Hs2 as [Hc _].
  unfold chr_eqb in *. rewrite Ascii.eqb_sym, Hc. cbn [negb].
  change (pre ++ c :: stem ++ "."%char :: e)
    with (pre ++ (c :: stem) ++ "."%char :: e).
  rewrite app_assoc, upto_app, from_app. reflexivity.
Qed.

End OsPathFacts.

(* ================================================================== *)
(** * The download *)

Lemma write_chunks_state path chunks : forall s,
  exists fs, write_chunks path chunks s = (Ok tt, DlState (save_path s) fs).
Proof.
  induction chunks as [|chunk more IH]; intros s.
  - exists (files s). destruct s; reflexivity.
  - cbn [write_chunks]. unfold bindM.
    destruct chunk as [|c chunk].
    + unfold ret. apply IH.
    + unfold write_chunk.
      destruct (IH (DlState (save_path s)
                      ((path, content_of (files s) path ++ c :: chunk) :: files s)))
        as (fs & ->).
      eauto.
Qed.

(** The [try] block either returns the successful outcome or raises, and the
    handler turns what it raises into the failed outcome. *)
Lemma download_file_outcome w url given d :
  fst (download_file w url given d) = outcome_of w url given.
Proof.
  unfold download_file, download_body, outcome_of, bindM, lift, raise_if,
    get_save_path, set_save_path, open_file, ret, failed.
  destruct (session_get w url) as [response|e]; [|reflexivity].
  destruct (raise_for_status response) as [e|]; [reflexivity|].
  cbn [save_path files].
  destruct (match content_length_header response with
            | Some v => int_of w v
            | None => Ok 0%Z
            end) as [n|e]; [|reflexivity].
  destruct (open_wb w _) as [e|]; [reflexivity|].
  cbn [save_path files].
  match goal with
  | |- context [write_chunks ?p ?c ?s] =>
      destruct (write_chunks_state p c s) as (fs & ->)
  end.
  cbn [save_path files].
  destruct (stream_error response) as [e|]; reflexivity.
Qed.

Lemma download_body_ok w url given d o s :
  download_body w url (DlState given d) = (Ok o, s) -> success o = true.
Proof.
  unfold download_body, bindM, lift, raise_if, get_save_path, set_save_path,
    open_file, ret.
  destruct (session_get w url) as [response|e]; [|discriminate].
  destruct (raise_for_status response) as [e|]; [discriminate|].
  cbn [save_path files].
  destruct (match content_length_header response with
            | Some v => int_of w v
            | None => Ok 0%Z
            end) as [n|e]; [|discriminate].
  destruct (open_wb w _) as [e|]; [discriminate|].
  cbn [save_path files].
  match goal with
  | |- context [write_chunks ?p ?c ?s] =>
      destruct (write_chunks_state p c s) as (fs & ->)
  end.
  cbn [save_path files].
  destruct (stream_error response) as [e|]; [discriminate|].
  intros [= <- _]. reflexivity.
Qed.

Lemma outcome_of_failed w url given :
  success (outcome_of w url given) = false ->
  exists e at_path, outcome_of w url given = failed at_path url e.
Proof.
  unfold outcome_of.
  repeat match goal with
         | |- context [match ?x with _ => _ end] => destruct x
         end; cbn [success]; intros H; try discriminate; eauto.
Qed.

Lemma outcome_of_success w url given :
  success (outcome_of w url given) = true ->
  exists content_type,
    outcome_of w url given
    = Outcome true (with_extension given (file_ext_of content_type url)) url
              (Some (file_ext_of content_type url)) None.
Proof.
  unfold outcome_of, failed.
  repeat match goal with
         | |- context [match ?x with _ => _ end] => destruct x
         end; cbn [success]; intros H; try discriminate; eauto.
Qed.

Lemma store_path_other metadata : forall i j p,
  i <> j -> nth_error (store_path metadata j p) i = nth_error metadata i.
Proof.
  induction metadata as [|a more IH]; intros i j p H; [reflexivity|].
  destruct j as [|j], i as [|i]; simpl; try reflexivity; try congruence.
  apply IH. congruence.
Qed.

Lemma run_downloads_untouched w completed : forall metadata d i,
  (forall t, In t completed -> idx t = i ->
             success (outcome_of w (task_url t) (task_path t)) = false) ->
  nth_error (fst (run_downloads w completed metadata d)) i
  = nth_error metadata i.
Proof.
  induction completed as [|t more IH]; intros metadata d i H; [reflexivity|].
  cbn [run_downloads].
  pose proof (download_file_outcome w (task_url t) (task_path t) d) as Ho.
  destruct (download_file w (task_url t) (task_path t) d) as [r d'].
  cbn [fst] in Ho. subst r.
  rewrite IH by (intros; apply H; [right|]; assumption).
  unfold record_result.
  destruct (success _) eqn:Hs; [|reflexivity].
  apply store_path_other. intros Hi.
  rewrite H in Hs; [discriminate | left; reflexivity | congruence].
Qed.

Lemma NoDup_map_idx (completed : list task) t t' :
  NoDup (map idx completed) -> In t completed -> In t' completed ->
  idx t' = idx t -> t' = t.
Proof.
  induction completed as [|x more IH]; [contradiction|].
  cbn [map]. intros Hnd [-> | Ht] [-> | Ht'] Hi; try reflexivity.
  - inversion Hnd as [|? ? Hnot _]. exfalso. apply Hnot.
    rewrite <- Hi. apply in_map, Ht'.
  - inversion Hnd as [|? ? Hnot _]. exfalso. apply Hnot.
    rewrite Hi. apply in_map, Ht.
  - inversion Hnd. auto.
Qed.

(** C4. Whatever the session, the file system and the stream do, an
    exception raised inside the download is caught: [download_file] returns
    the failed outcome with the exception's text, and it returns a
    successful outcome only when nothing was raised.  A failed outcome
    changes no record, so after all downloads the record of a failed task
    still has the path it was given at creation. *)
Theorem download_failure_contained (w : env) (url given : str) (d : disk) :
  (forall e s,
      download_body w url (DlState given d) = (Raise e, s) ->
      fst (download_file w url given d)
      = Outcome false (save_path s) url None (Some (str_of e))) /\
  (forall o s,
      download_body w url (DlState given d) = (Ok o, s) ->
      fst (download_file w url given d) = o /\ success o = true) /\
  (forall metadata t,
      success (fst (download_file w url given d)) = false ->
      record_result metadata t (fst (download_file w url given d)) = metadata) /\
  (forall completed metadata d0 t,
      NoDup (map idx completed) -> In t completed ->
      success (fst (download_file w (task_url t) (task_path t) d0)) = false ->
      nth_error (fst (run_downloads w completed metadata d0)) (idx t)
      = nth_error metadata (idx t)).
Proof.
  repeat split.
  - intros e s H. unfold download_file. rewrite H. reflexivity.
  - unfold download_file. rewrite H. reflexivity.
  - eapply download_body_ok; eauto.
  - intros metadata t H. unfold record_result. rewrite H. reflexivity.
  - intros completed metadata d0 t Hnd Hin Hf.
    apply run_downloads_untouched. intros t' Hin' Hi.
    rewrite (NoDup_map_idx _ _ _ Hnd Hin Hin' Hi).
    rewrite <- (download_file_outcome w (task_url t) (task_path t) d0).
    exact Hf.
Qed.

(* ================================================================== *)
(** * The path a download returns *)

Lemma with_extension_cases given file_ext :
  with_extension given file_ext
  = if str_eqb (lower (snd (OsPath.splitext given))) (L "." ++ file_ext)
    then given
    else fst (OsPath.splitext given) ++ L "." ++ file_ext.
Proof.
  unfold with_extension. destruct (OsPath.splitext given) as [b e].
  cbn [fst snd]. destruct (str_eqb _ _); reflexivity.
Qed.

(** C10. A successful download returns the path it was given with at most
    the extension changed: the given path is a base followed by an extension
    without a slash, the returned one is the same base followed by a dot and
    the resolved extension, or the given path itself; and it is the given
    path itself when the given extension equals the resolved one up to
    case. *)
Theorem download_keeps_stem (w : env) (url given : str) (d : disk) :
  success (fst (download_file w url given d)) = true ->
  exists file_ext,
    extension (fst (download_file w url given d)) = Some file_ext /\
    given = fst (OsPath.splitext given) ++ snd (OsPath.splitext given) /\
    has_chr "/" (snd (OsPath.splitext given)) = false /\
    has_chr "/" (L "." ++ file_ext) = false /\
    (path (fst (download_file w url given d)) = given \/
     path (fst (download_file w url given d))
     = fst (OsPath.splitext given) ++ L "." ++ file_ext) /\
    (lower (snd (OsPath.splitext given)) = lower (L "." ++ file_ext) ->
     path (fst (download_file w url given d)) = given).
Proof.
  rewrite download_file_outcome. intros H.
  apply outcome_of_success in H as (ct & ->). cbn [extension path].
  exists (file_ext_of ct url).
  destruct (OsPathFacts.splitext_parts given) as (Hcat & Hslash & _).
  rewrite with_extension_cases.
  assert (Hlow : lower (L "." ++ file_ext_of ct url) = L "." ++ file_ext_of ct url)
    by (destruct (file_ext_of_known ct url) as [-> | ->]; reflexivity).
  repeat split; auto.
  - destruct (file_ext_of_known ct url) as [-> | ->]; reflexivity.
  - destruct (str_eqb _ _); auto.
  - intros He. rewrite Hlow in He. apply str_eqb_eq in He. rewrite He.
    reflexivity.
Qed.

Lemma download_keeps_stem_witness :
  success (fst (download_file serving_pdf (L "http://x/a")
                  (L "/home/u/Downloads/vol/01-Soil_pH.PDF") [])) = true /\
  exists file_ext,
    extension (fst (download_file serving_pdf (L "http://x/a")
                      (L "/home/u/Downloads/vol/01-Soil_pH.PDF") []))
    = Some file_ext /\
    L "/home/u/Downloads/vol/01-Soil_pH.PDF"
    = fst (OsPath.splitext (L "/home/u/Downloads/vol/01-Soil_pH.PDF"))
      ++ snd (OsPath.splitext (L "/home/u/Downloads/vol/01-Soil_pH.PDF")) /\
    has_chr "/" (snd (OsPath.splitext (L "/home/u/Downloads/vol/01-Soil_pH.PDF")))
    = false /\
    has_chr "/" (L "." ++ file_ext) = false /\
    (path (fst (download_file serving_pdf (L "http://x/a")
                  (L "/home/u/Downloads/vol/01-Soil_pH.PDF") []))
     = L "/home/u/Downloads/vol/01-Soil_pH.PDF" \/
     path (fst (download_file serving_pdf (L "http://x/a")
                  (L "/home/u/Downloads/vol/01-Soil_pH.PDF") []))
     = fst (OsPath.splitext (L "/home/u/Downloads/vol/01-Soil_pH.PDF"))
       ++ L "." ++ file_ext) /\
    (lower (snd (OsPath.splitext (L "/home/u/Downloads/vol/01-Soil_pH.PDF")))
     = lower (L "." ++ file_ext) ->
     path (fst (download_file serving_pdf (L "http://x/a")
                  (L "/home/u/Downloads/vol/01-Soil_pH.PDF") []))
     = L "/home/u/Downloads/vol/01-Soil_pH.PDF").
Proof.
  split; [reflexivity|].
  apply (download_keeps_stem serving_pdf (L "http://x/a")
           (L "/home/u/Downloads/vol/01-Soil_pH.PDF") []).
  reflexivity.
Defined.

Example download_rewrites_extension :
  path (fst (download_file serving_pdf (L "http://x/a")
               (L "/d/01-Soil_pH.docx") []))
  = L "/d/01-Soil_pH.pdf"
  /\ path (fst (download_file serving_pdf (L "http://x/a")
                  (L "/d/01-Soil_pH.PDF") []))
     = L "/d/01-Soil_pH.PDF"
  /\ fst (download_file unreachable (L "http://x/a") (L "/d/01-Soil_pH.pdf") [])
     = Outcome false (L "/d/01-Soil_pH.pdf") (L "http://x/a") None
               (Some (L "connection refused")).
Proof. repeat split. Qed.

(* ================================================================== *)
(** * Correlation *)

Section Correlation.
Variable get_text : str -> str.

Lemma item_or_nth xs i d : item_or xs i d = Ok (nth i xs d).
Proof.
  unfold item_or, index. destruct (i <? length xs) eqn:E.
  - apply Nat.ltb_lt in E. rewrite (nth_error_nth' xs d E). reflexivity.
  - apply Nat.ltb_ge in E. rewrite nth_overflow by assumption. reflexivity.
Qed.

Lemma article_locals_at f i :
  article_locals get_text f i = Ok (locals_at get_text f i).
Proof.
  unfold article_locals, locals_at. rewrite !item_or_nth. cbn [Exn.bind].
  destruct (i <? length (all_abstracts f)) eqn:E.
  - apply Nat.ltb_lt in E. unfold index.
    destruct (nth_error (all_abstracts f) i) eqn:N; [reflexivity|].
    apply nth_error_None in N. lia.
  - apply Nat.ltb_ge in E. apply nth_error_None in E. rewrite E. reflexivity.
Qed.

Lemma for_each_closed url volume_dir f range : forall acc,
  for_each get_text url volume_dir f range acc
  = Ok (fst acc ++ map (article_at get_text volume_dir f) range,
        snd acc ++ flat_map (tasks_at get_text url volume_dir f) range).
Proof.
  induction range as [|i more IH]; intros [metadata tasks].
  - cbn. rewrite !app_nil_r. reflexivity.
  - cbn [for_each]. unfold turn. rewrite article_locals_at. cbn [Exn.bind].
    cbn [flat_map map fst snd].
    assert (Ht : tasks_at get_text url volume_dir f i
                 = match download_link (locals_at get_text f i) with
                   | _ :: _ =>
                       [Task i (file_path (article_of volume_dir i (locals_at get_text f i)))
                             (absolute_link url (download_link (locals_at get_text f i)))]
                   | [] => []
                   end) by reflexivity.
    rewrite Ht. unfold article_at at 1.
    destruct (download_link (locals_at get_text f i)) eqn:E;
      cbn [Exn.bind]; rewrite IH; cbn [fst snd];
      rewrite <- !app_assoc; reflexivity.
Qed.

Lemma correlate_closed url volume_dir f :
  correlate get_text url volume_dir f
  = Ok (map (article_at get_text volume_dir f) (seq 0 (length (all_topics f))),
        flat_map (tasks_at get_text url volume_dir f)
                 (seq 0 (length (all_topics f)))).
Proof. unfold correlate. rewrite for_each_closed. reflexivity. Qed.

(** C1. For every page, with the topic list being the non-empty topic
    texts: the loop raises nothing and yields one record per topic; record
    [i] has the [i]-th topic as title, and each other field is the [i]-th
    element of its list when there is one, else its default: Original
    Research for the article type, the empty string for the pages, the
    authors, the download link and the abstract (the abstract fragments
    being the values as plain text). *)
Theorem correlate_spec (url volume_dir : str) (texts types pgs auths downloads : list str)
        (abstracts : list (str * str)) :
  let f := Fragments (collect_topics texts) types pgs auths downloads abstracts in
  exists metadata tasks,
    correlate get_text url volume_dir f = Ok (metadata, tasks) /\
    length metadata = length (filter nonempty texts) /\
    forall i, i < length (all_topics f) ->
      exists a v,
        nth_error metadata i = Some a /\
        article_locals get_text f i = Ok v /\
        nth_error (all_topics f) i = Some (title a) /\
        topic v = title a /\
        article_type v = nth i types (L "Original Research") /\
        page_number a = nth i pgs [] /\ pages v = page_number a /\
        authors a = nth i auths [] /\ authors_text v = authors a /\
        download_link v = nth i downloads [] /\
        abstract a = nth i (abstract_fragments get_text abstracts) [] /\
        abstract_text v = abstract a.
Proof.
  intros f. rewrite correlate_closed. eexists _, _. split; [reflexivity|].
  split; [rewrite length_map, length_seq; reflexivity|].
  intros i Hi.
  exists (article_at get_text volume_dir f i), (locals_at get_text f i).
  split.
  { rewrite nth_error_map, nth_error_seq.
    apply Nat.ltb_lt in Hi. rewrite Hi. reflexivity. }
  split; [apply article_locals_at|].
  split.
  { cbn [article_at article_of title locals_at topic].
    apply nth_error_nth'. assumption. }
  cbn. repeat split.
  unfold abstract_fragments.
  destruct (nth_error abstracts i) as [a|] eqn:E.
  - erewrite nth_error_nth by (apply map_nth_error; eassumption).
    reflexivity.
  - apply nth_error_None in E. rewrite nth_overflow; [reflexivity|].
    rewrite length_map. exact E.
Qed.

End Correlation.

Example correlate_two_topics :
  correlate (fun v => v) (L "http://site/vol/") downloads_dir two_topics
  = Ok ([Article (L "Soil pH Effects") (L "1-9") [] (L "a b")
                 (L "/home/u/Downloads/vol/01-Soil_pH_Effects.pdf") [] [];
         Article (L "Nitrogen Study") [] [] []
                 (L "/home/u/Downloads/vol/02-Nitrogen_Study.pdf") [] []],
        [Task 0 (L "/home/u/Downloads/vol/01-Soil_pH_Effects.pdf")
              (L "http://x/a.pdf")]).
Proof. reflexivity. Qed.

(* ================================================================== *)
(** * The index prefix *)

Import OsPathFacts.

Lemma has_chr_false c s : has_chr c s = false <-> ~ In c s.
Proof.
  unfold has_chr. split.
  - intros H Hin. assert (existsb (chr_eqb c) s = true); [|congruence].
    apply existsb_exists. exists c. split; [assumption | apply Ascii.eqb_refl].
  - intros H. destruct (existsb _ s) eqn:E; [|reflexivity].
    apply existsb_exists in E as (x & Hin & Hx).
    apply Ascii.eqb_eq in Hx. subst x. contradiction.
Qed.

Lemma L_inj a b : L a = L b -> a = b.
Proof.
  intros H. rewrite <- (string_of_list_ascii_of_string a),
    <- (string_of_list_ascii_of_string b). unfold L in H. congruence.
Qed.

Lemma digits_of_uint u c :
  In c (L (NilEmpty.string_of_uint u)) -> is_digit c = true.
Proof.
  induction u; cbn [NilEmpty.string_of_uint L list_ascii_of_string In];
    try contradiction; (intros [<- | H]; [reflexivity | auto]).
Qed.

Lemma zeros_written k u :
  repeat "0"%char k ++ L (NilEmpty.string_of_uint u)
  = L (NilEmpty.string_of_uint (zeros k u)).
Proof.
  induction k as [|k IH]; [reflexivity|].
  cbn [repeat app zeros NilEmpty.string_of_uint L list_ascii_of_string].
  f_equal. exact IH.
Qed.

Lemma zeros_value k u : Nat.of_uint (zeros k u) = Nat.of_uint u.
Proof. induction k as [|k IH]; [reflexivity | exact IH]. Qed.

Lemma format_02d_written n :
  exists u, format_02d n = L (NilEmpty.string_of_uint u) /\ Nat.of_uint u = n.
Proof.
  unfold format_02d. destruct (_ <? 2).
  - exists (zeros (2 - length (L (NilEmpty.string_of_uint (Nat.to_uint n))))
                  (Nat.to_uint n)).
    split; [apply zeros_written|].
    rewrite zeros_value. apply DecimalNat.Unsigned.of_to.
  - exists (Nat.to_uint n). split; [reflexivity|].
    apply DecimalNat.Unsigned.of_to.
Qed.

Lemma format_02d_inj n m : format_02d n = format_02d m -> n = m.
Proof.
  destruct (format_02d_written n) as (u & -> & <-).
  destruct (format_02d_written m) as (v & -> & <-).
  intros H. apply L_inj in H.
  assert (E : Some u = Some v)
    by (rewrite <- (NilEmpty.usu u), <- (NilEmpty.usu v), H; reflexivity).
  congruence.
Qed.

Lemma format_02d_digits n c : In c (format_02d n) -> is_digit c = true.
Proof.
  destruct (format_02d_written n) as (u & -> & _). apply digits_of_uint.
Qed.

Lemma format_02d_length n : 2 <= length (format_02d n).
Proof.
  unfold format_02d. destruct (_ <? 2) eqn:E.
  - apply Nat.ltb_lt in E. rewrite length_app, repeat_length. lia.
  - apply Nat.ltb_ge in E. exact E.
Qed.

Lemma format_02d_free n c : is_digit c = false -> has_chr c (format_02d n) = false.
Proof.
  intros H. apply has_chr_false. intros Hin.
  apply format_02d_digits in Hin. congruence.
Qed.

(** Two texts that agree and in which [c] first occurs after [a] and after
    [b] have [a] and [b] equal. *)
Lemma first_occurrence_unique c : forall a b x y,
  has_chr c a = false -> has_chr c b = false ->
  a ++ c :: x = b ++ c :: y -> a = b.
Proof.
  induction a as [|u a IH]; intros [|v b] x y Ha Hb H.
  - reflexivity.
  - cbn [app] in H. injection H as -> _.
    rewrite has_chr_cons in Hb. unfold chr_eqb in Hb.
    rewrite Ascii.eqb_refl in Hb. discriminate.
  - cbn [app] in H. injection H as -> _.
    rewrite has_chr_cons in Ha. unfold chr_eqb in Ha.
    rewrite Ascii.eqb_refl in Ha. discriminate.
  - cbn [app] in H. injection H as -> H.
    rewrite has_chr_cons in Ha, Hb.
    apply orb_false_iff in Ha as [_ Ha]. apply orb_false_iff in Hb as [_ Hb].
    f_equal. eapply IH; eauto.
Qed.

Lemma sanitize_filename_free t c :
  is_invalid c = true -> has_chr c (sanitize_filename t) = false.
Proof.
  intros Hc. apply has_chr_false. intros Hin.
  rewrite sanitize_filename_firstn in Hin.
  apply In_firstn_In, uncut_In in Hin.
  destruct Hin as [-> | (_ & Hv & _)]; [discriminate | congruence].
Qed.

Lemma stem_no_slash i t : has_chr "/" (stem i t) = false.
Proof.
  unfold stem. rewrite !has_chr_app.
  rewrite format_02d_free, sanitize_filename_free by reflexivity.
  reflexivity.
Qed.

Lemma stem_no_dot i t : has_chr "." (stem i t) = false.
Proof.
  unfold stem. rewrite !has_chr_app.
  rewrite format_02d_free, sanitize_filename_free by reflexivity.
  reflexivity.
Qed.

Lemma stem_starts i t : exists c rest, stem i t = c :: rest.
Proof.
  unfold stem. pose proof (format_02d_length (i + 1)) as H.
  destruct (format_02d (i + 1)) as [|c rest]; [simpl in H; lia|].
  cbn [app]. eauto.
Qed.

Lemma stem_inj i j t u e1 e2 :
  stem i t ++ e1 = stem j u ++ e2 -> i = j.
Proof.
  unfold stem. change (L "-") with ["-"%char]. rewrite <- !app_assoc.
  cbn [app]. intros H.
  apply first_occurrence_unique in H;
    try (apply format_02d_free; reflexivity).
  apply format_02d_inj in H. lia.
Qed.

(* ================================================================== *)
(** * Distinct file paths *)

Lemma provisional_path_shape volume_dir i t :
  provisional_path volume_dir i t
  = OsPath.dir_prefix volume_dir ++ stem i t ++ L ".pdf".
Proof.
  unfold provisional_path, stem. rewrite <- !app_assoc.
  apply join_name.
  pose proof (format_02d_length (i + 1)) as Hl.
  pose proof (format_02d_digits (i + 1)) as Hd.
  destruct (format_02d (i + 1)) as [|c rest]; [simpl in Hl; lia|].
  specialize (Hd c (or_introl eq_refl)).
  change (L "/") with ["/"%char]. cbn [app startswith].
  destruct (chr_eqb "/" c) eqn:E; [|reflexivity].
  apply Ascii.eqb_eq in E. subst c. discriminate.
Qed.

Lemma with_extension_provisional volume_dir i t e :
  e = L "pdf" \/ e = L "docx" ->
  with_extension (provisional_path volume_dir i t) e
  = OsPath.dir_prefix volume_dir ++ stem i t ++ L "." ++ e.
Proof.
  intros He. rewrite provisional_path_shape, with_extension_cases.
  pose proof (stem_no_slash i t) as H1. pose proof (stem_no_dot i t) as H2.
  destruct (stem_starts i t) as (c & rest & Hs). rewrite Hs in *.
  change (L ".pdf") with ("."%char :: L "pdf").
  rewrite splitext_name by (auto using dir_prefix_shape).
  cbn [fst snd]. destruct He as [-> | ->]; cbn; rewrite <- ?app_assoc; reflexivity.
Qed.

Section Distinct.
Variable get_text : str -> str.
Variables (url volume_dir : str) (f : fragments).

Lemma paths_ok_initial n :
  paths_ok get_text volume_dir f (map (article_at get_text volume_dir f) (seq 0 n)).
Proof.
  intros i a H. rewrite nth_error_map, nth_error_seq in H.
  destruct (i <? n); [|discriminate]. injection H as <-.
  exists (L "pdf"). split; [auto|].
  cbn [article_at article_of file_path]. apply provisional_path_shape.
Qed.

Lemma store_path_nth metadata : forall j p i,
  nth_error (store_path metadata j p) i
  = if i =? j then option_map (set_file_path p) (nth_error metadata i)
    else nth_error metadata i.
Proof.
  induction metadata as [|a more IH]; intros j p i.
  - destruct (i =? j), i; reflexivity.
  - destruct j as [|j], i as [|i]; try reflexivity. cbn. apply IH.
Qed.

Lemma task_from_loop n t :
  In t (flat_map (tasks_at get_text url volume_dir f) (seq 0 n)) ->
  task_path t = provisional_path volume_dir (idx t) (topic_of get_text f (idx t)).
Proof.
  intros H. apply in_flat_map in H as (i & _ & Ht).
  unfold tasks_at in Ht. destruct (download_link _); [contradiction|].
  destruct Ht as [<- | []]. reflexivity.
Qed.

Lemma record_result_ok w metadata t d :
  task_path t = provisional_path volume_dir (idx t) (topic_of get_text f (idx t)) ->
  paths_ok get_text volume_dir f metadata ->
  paths_ok get_text volume_dir f (record_result metadata t
              (fst (download_file w (task_url t) (task_path t) d))).
Proof.
  intros Ht Hm. rewrite download_file_outcome. unfold record_result.
  destruct (success _) eqn:Hs; [|assumption].
  apply outcome_of_success in Hs as (ct & ->). cbn [path].
  intros i a H. rewrite store_path_nth in H.
  destruct (i =? idx t) eqn:E; [|eauto].
  apply Nat.eqb_eq in E. subst i.
  destruct (nth_error metadata (idx t)); [|discriminate].
  injection H as <-. exists (file_ext_of ct (task_url t)).
  split; [apply file_ext_of_known|].
  cbn [set_file_path file_path]. rewrite Ht.
  apply with_extension_provisional, file_ext_of_known.
Qed.

Lemma run_downloads_ok w completed : forall metadata d,
  (forall t, In t completed ->
             task_path t = provisional_path volume_dir (idx t) (topic_of get_text f (idx t))) ->
  paths_ok get_text volume_dir f metadata ->
  paths_ok get_text volume_dir f (fst (run_downloads w completed metadata d)).
Proof.
  induction completed as [|t more IH]; intros metadata d Hc Hm; [assumption|].
  cbn [run_downloads].
  pose proof (@record_result_ok w metadata t d (Hc t (or_introl eq_refl)) Hm) as Hr.
  destruct (download_file w (task_url t) (task_path t) d) as [r d'].
  apply IH; [intros; apply Hc; right; assumption | exact Hr].
Qed.

Lemma paths_ok_NoDup metadata :
  paths_ok get_text volume_dir f metadata -> NoDup (map file_path metadata).
Proof.
  intros Hm. apply NoDup_nth_error. intros i j Hi E.
  rewrite !nth_error_map in E. rewrite length_map in Hi.
  destruct (nth_error metadata i) as [a|] eqn:Ea;
    [|apply nth_error_None in Ea; lia].
  destruct (nth_error metadata j) as [b|] eqn:Eb; [|discriminate].
  injection E as E.
  destruct (Hm _ _ Ea) as (e1 & _ & H1). destruct (Hm _ _ Eb) as (e2 & _ & H2).
  rewrite H1, H2 in E. apply app_inv_head in E.
  eapply stem_inj; eauto.
Qed.

(** C6. For every run the file paths of the records are pairwise distinct,
    when the records are made and again after the downloads, in whatever
    order they complete, have rewritten the extensions. *)
Theorem file_paths_distinct :
  exists metadata tasks,
    correlate get_text url volume_dir f = Ok (metadata, tasks) /\
    NoDup (map file_path metadata) /\
    forall w completed d,
      Permutation completed tasks ->
      NoDup (map file_path (fst (run_downloads w completed metadata d))).
Proof.
  rewrite correlate_closed. eexists _, _. split; [reflexivity|]. split.
  - apply paths_ok_NoDup, paths_ok_initial.
  - intros w completed d Hp. apply paths_ok_NoDup, run_downloads_ok.
    + intros t Ht. eapply task_from_loop, Permutation_in; eauto.
    + apply paths_ok_initial.
Qed.

End Distinct.

(* ================================================================== *)
(** * Mined emails *)

Lemma seen_existsb acc x :
  seen acc x = existsb (same_ignoring_case x) acc.
Proof.
  unfold seen, same_ignoring_case.
  induction acc as [|a acc IH]; [reflexivity|].
  cbn [map existsb]. rewrite IH. reflexivity.
Qed.

Lemma same_ignoring_case_existsb x y l :
  same_ignoring_case y x = true ->
  existsb (same_ignoring_case y) l = existsb (same_ignoring_case x) l.
Proof.
  unfold same_ignoring_case. intros H. apply str_eqb_eq in H. rewrite H.
  reflexivity.
Qed.

(** The loop keeps what [first_occurrences] keeps. *)
Lemma unique_loop matches : forall acc prior,
  (forall y, existsb (same_ignoring_case y) acc
             = existsb (same_ignoring_case y) prior) ->
  fold_left
    (fun unique_emails email =>
       if negb (seen unique_emails email)
       then unique_emails ++ [email]
       else unique_emails)
    matches acc
  = acc ++ first_occurrences prior matches.
Proof.
  induction matches as [|x more IH]; intros acc prior H.
  - cbn. rewrite app_nil_r. reflexivity.
  - cbn [fold_left first_occurrences]. rewrite seen_existsb, H.
    destruct (existsb (same_ignoring_case x) prior) eqn:E; cbn [negb].
    + apply IH. intros y. cbn [existsb]. rewrite H.
      destruct (same_ignoring_case y x) eqn:Eyx; [|reflexivity].
      rewrite (same_ignoring_case_existsb _ _ _ Eyx), E. reflexivity.
    + rewrite (IH (acc ++ [x]) (x :: prior)).
      * rewrite <- app_assoc. reflexivity.
      * intros y. rewrite existsb_app. cbn [existsb]. rewrite H.
        rewrite orb_false_r. apply orb_comm.
Qed.

Lemma unique_first_occurrences matches :
  unique matches = first_occurrences [] matches.
Proof. unfold unique. rewrite (unique_loop matches [] []); auto. Qed.

Lemma existsb_same_false x prior :
  existsb (same_ignoring_case x) prior = false ->
  ~ In (lower x) (map lower prior).
Proof.
  intros H Hin. apply in_map_iff in Hin as (y & Hy & Hin).
  assert (existsb (same_ignoring_case x) prior = true); [|congruence].
  apply existsb_exists. exists y. split; [assumption|].
  unfold same_ignoring_case. apply str_eqb_eq. congruence.
Qed.

Lemma first_occurrences_fresh matches : forall prior a,
  In a (first_occurrences prior matches) -> ~ In (lower a) (map lower prior).
Proof.
  induction matches as [|x more IH]; intros prior a H; [contradiction|].
  cbn [first_occurrences] in H.
  destruct (existsb (same_ignoring_case x) prior) eqn:E.
  - apply IH in H. cbn [map In] in H. tauto.
  - destruct H as [<- | H]; [apply existsb_same_false, E|].
    apply IH in H. cbn [map In] in H. tauto.
Qed.

Lemma first_occurrences_NoDup matches : forall prior,
  NoDup (map lower (first_occurrences prior matches)).
Proof.
  induction matches as [|x more IH]; intros prior; [constructor|].
  cbn [first_occurrences].
  destruct (existsb (same_ignoring_case x) prior); [apply IH|].
  cbn [map]. constructor; [|apply IH].
  intros Hin. apply in_map_iff in Hin as (a & Ha & Hin).
  apply first_occurrences_fresh in Hin. apply Hin. cbn [map In]. auto.
Qed.

Lemma first_occurrences_complete matches : forall prior m,
  In m matches ->
  (exists a, In a (first_occurrences prior matches) /\ lower a = lower m)
  \/ In (lower m) (map lower prior).
Proof.
  induction matches as [|x more IH]; intros prior m H; [contradiction|].
  cbn [first_occurrences]. destruct H as [-> | H].
  - destruct (existsb (same_ignoring_case m) prior) eqn:E.
    + right. apply existsb_exists in E as (y & Hy & E).
      apply str_eqb_eq in E. rewrite E. apply in_map, Hy.
    + left. exists m. split; [left|]; reflexivity.
  - destruct (IH (x :: prior) m H) as [(a & Ha & E) | Hin].
    + left. exists a. split; [|assumption].
      destruct (existsb _ prior); [|right]; assumption.
    + cbn [map In] in Hin. destruct Hin as [E | Hin]; [|right; assumption].
      destruct (existsb (same_ignoring_case x) prior) eqn:Ex.
      * right. apply existsb_exists in Ex as (y & Hy & Ex).
        apply str_eqb_eq in Ex. rewrite <- E, Ex. apply in_map, Hy.
      * left. exists x. split; [left; reflexivity | assumption].
Qed.

(** C8. For every text, the emails returned are the matches of the pattern
    with only first occurrences kept: a match is returned exactly when no
    earlier match equals it ignoring case, in the order and with the casing
    it has in the text; no two returned emails are equal ignoring case, and
    every match equals a returned email ignoring case. *)
Theorem extract_emails_dedup (text : str) :
  extract_emails_from_text text
  = first_occurrences [] (Re.findall email_pattern text) /\
  NoDup (map lower (extract_emails_from_text text)) /\
  (forall m, In m (Re.findall email_pattern text) ->
             exists a, In a (extract_emails_from_text text) /\
                       lower a = lower m).
Proof.
  unfold extract_emails_from_text. rewrite unique_first_occurrences.
  split; [reflexivity|]. split; [apply first_occurrences_NoDup|].
  intros m Hm.
  destruct (first_occurrences_complete _ [] _ Hm) as [H | []]. exact H.
Qed.

Example emails_scenario :
  extract_emails_from_text
    (L "Mail John.Doe@Example.com or JOHN.DOE@example.COM; bob@x.org. a@b.c")
  = [L "John.Doe@Example.com"; L "bob@x.org"].
Proof. reflexivity. Qed.

(* ================================================================== *)
(** * Mined keywords *)

(** C5. On the text of the scenario the block pattern matches in the
    lowered text, and the keywords returned are cut from that lowered text:
    the last one is [ph], not [pH]. *)
Theorem keywords_scenario :
  extract_keywords_from_text scenario_text
  = [L "soil"; L "nitrogen"; L "ph"].
Proof. reflexivity. Qed.

(** The scan of the lines, which reads the keywords off the line as it is,
    keeps the casing on the same text. *)
Example keywords_scenario_by_lines :
  scan_lines (Py.split newline scenario_text)
  = [L "soil"; L "nitrogen"; L "pH"].
Proof. reflexivity. Qed.

(* ================================================================== *)
(** * Stripping and lowering *)

Lemma lower_chr_idem c : lower_chr (lower_chr c) = lower_chr c.
Proof. destruct c as [[] [] [] [] [] [] [] []]; reflexivity. Qed.

Lemma lower_idem s : lower (lower s) = lower s.
Proof.
  unfold lower. rewrite map_map. apply map_ext. apply lower_chr_idem.
Qed.

Lemma lower_chr_colon c : lower_chr c = ":"%char -> c = ":"%char.
Proof. destruct c as [[] [] [] [] [] [] [] []]; intros H; try reflexivity; discriminate. Qed.

Lemma lstrip_starts s : starts_plain (lstrip s).
Proof.
  induction s as [|c t IH]; [exact I|].
  simpl. destruct (is_space c) eqn:E; [exact IH | exact E].
Qed.

Lemma lstrip_plain s : starts_plain s -> lstrip s = s.
Proof. destruct s as [|c t]; [reflexivity|]. simpl. intros ->. reflexivity. Qed.

Lemma lstrip_snoc a c : is_space c = false -> lstrip (a ++ [c]) = lstrip a ++ [c].
Proof.
  intros Hc. induction a as [|x a IH].
  - simpl. rewrite Hc. reflexivity.
  - simpl. destruct (is_space x); [exact IH | reflexivity].
Qed.

Lemma lstrip_In s c : In c (lstrip s) -> In c s.
Proof.
  induction s as [|x t IH]; [contradiction|].
  simpl. destruct (is_space x); [right; auto | auto].
Qed.

Lemma rstrip_ends s : ends_plain (rstrip s).
Proof. unfold ends_plain, rstrip. rewrite rev_involutive. apply lstrip_starts. Qed.

Lemma rstrip_plain s : ends_plain s -> rstrip s = s.
Proof.
  unfold ends_plain, rstrip. intros H. rewrite lstrip_plain by assumption.
  apply rev_involutive.
Qed.

Lemma rstrip_starts s : starts_plain s -> starts_plain (rstrip s).
Proof.
  destruct s as [|c t]; [intros _; exact I|].
  simpl. intros Hc. unfold rstrip. simpl rev.
  rewrite lstrip_snoc by assumption. rewrite rev_app_distr. simpl. exact Hc.
Qed.

Lemma strip_trimmed s : trimmed (strip s).
Proof.
  split; [apply rstrip_starts, lstrip_starts | apply rstrip_ends].
Qed.

Lemma strip_of_trimmed s : trimmed s -> strip s = s.
Proof.
  intros [H1 H2]. unfold strip. rewrite lstrip_plain by assumption.
  apply rstrip_plain, H2.
Qed.

Lemma strip_idem s : strip (strip s) = strip s.
Proof. apply strip_of_trimmed, strip_trimmed. Qed.

Lemma strip_In s c : In c (strip s) -> In c s.
Proof.
  unfold strip, rstrip. intros H. apply in_rev, lstrip_In, in_rev in H.
  apply lstrip_In, H.
Qed.

(* ================================================================== *)
(** * What the matcher consumes *)

Module ReSound.
Import Re ReFacts.

Section Consumed.
Variable A : Type.

Lemma rep0_sound g p rs : forall pv o gr (k : st -> option A) x,
  rep0 g p pv rs o gr k = Some x ->
  exists s' w, rs = w ++ rest s' /\ off s' = o + length w /\
               forallb p w = true /\ k s' = Some x.
Proof.
  induction rs as [|c t IH]; intros pv o gr k x H.
  - exists (St pv [] o gr), []. cbn. repeat split; auto.
  - cbn [rep0] in H. destruct (p c) eqn:Hc.
    + assert (rep0 g p (Some c) t (S o) gr k = Some x
              \/ k (St pv (c :: t) o gr) = Some x) as [H1 | H1]
        by (destruct g; apply or_else_some in H; tauto).
      * destruct (IH _ _ _ _ _ H1) as (s' & w & Hr & Ho & Hp & Hk).
        exists s', (c :: w). cbn [app length forallb].
        rewrite Hc, Hp, Ho, <- Hr. repeat split; auto; lia.
      * exists (St pv (c :: t) o gr), []. cbn. repeat split; auto.
    + exists (St pv (c :: t) o gr), []. cbn. repeat split; auto.
Qed.

Lemma rep_sound g p lo : forall s (k : st -> option A) x,
  rep g p lo s k = Some x ->
  exists s' w, rest s = w ++ rest s' /\ off s' = off s + length w /\
               lo <= length w /\ forallb p w = true /\ k s' = Some x.
Proof.
  induction lo as [|lo IH]; intros [pv rs o gr] k x H.
  - apply rep0_sound in H as (s' & w & Hr & Ho & Hp & Hk).
    exists s', w. cbn [rest off]. repeat split; auto; lia.
  - cbn [rep rest off grp] in H. destruct rs as [|c t]; [discriminate|].
    destruct (p c) eqn:Hc; [|discriminate].
    destruct (IH _ _ _ H) as (s' & w & Hr & Ho & Hl & Hp & Hk).
    cbn [rest off] in *. exists s', (c :: w). cbn [app length forallb].
    rewrite Hc, Hp, Ho, <- Hr. repeat split; auto; lia.
Qed.

Lemma m_sound r : forall s (k : st -> option A) x,
  m r s k = Some x ->
  exists s' w, rest s = w ++ rest s' /\ off s' = off s + length w /\
               lang r w /\ k s' = Some x.
Proof.
  induction r as [|p|g lo p|a IHa b IHb|a IHa b IHb|a IHa|a IHa|];
    intros s k x H; cbn [m] in H.
  - exists s, []. cbn. repeat split; auto.
  - destruct s as [pv rs o gr]. cbn [rest off grp] in H.
    destruct rs as [|c t]; [discriminate|].
    destruct (p c) eqn:Hc; [|discriminate].
    exists (St (Some c) t (S o) gr), [c]. cbn.
    repeat split; eauto; try lia.
  - apply rep_sound in H as (s' & w & Hr & Ho & Hl & Hp & Hk).
    exists s', w. cbn. auto.
  - destruct (IHa _ _ _ H) as (s1 & u & R1 & O1 & L1 & H1).
    destruct (IHb _ _ _ H1) as (s2 & v & R2 & O2 & L2 & H2).
    exists s2, (u ++ v). rewrite R1, R2, O2, O1, length_app, app_assoc.
    repeat split; auto; try lia. cbn. eauto.
  - apply or_else_some in H as [H | H].
    + destruct (IHa _ _ _ H) as (s' & w & ? & ? & ? & ?).
      exists s', w. cbn. auto.
    + destruct (IHb _ _ _ H) as (s' & w & ? & ? & ? & ?).
      exists s', w. cbn. auto.
  - apply or_else_some in H as [H | H].
    + destruct (IHa _ _ _ H) as (s' & w & ? & ? & ? & ?).
      exists s', w. cbn. auto.
    + exists s, []. cbn. repeat split; auto.
  - destruct (IHa _ _ _ H) as (s1 & w & R1 & O1 & L1 & H1).
    exists (St (prev s1) (rest s1) (off s1)
               (Some (firstn (off s1 - off s) (rest s)))), w.
    cbn [rest off lang]. repeat split; auto.
  - destruct (xorb _ _); [|discriminate].
    exists s, []. cbn. repeat split; auto.
Qed.

End Consumed.

(** A match found by the scan is a word of the pattern, standing in the
    text between what was passed over and what is left. *)
Lemma scan_found r rs : forall pv o sk f,
  scan r pv rs o sk = Some f ->
  exists a, rs = a ++ matched f ++ rest (after f) /\
            before f = rev sk ++ a /\ lang r (matched f).
Proof.
  induction rs as [|c t IH]; intros pv o sk f H; cbn [scan] in H.
  - destruct (m r (St pv [] o None) (fun s' => Some s')) as [s'|] eqn:E;
      [|discriminate].
    apply m_sound in E as (s1 & w & R & O & Hl & [= ->]).
    injection H as <-. cbn [rest off matched after before] in *.
    destruct w; [|discriminate]. cbn in R. subst.
    exists []. rewrite O, app_nil_r. cbn [length]. rewrite Nat.add_0_r, Nat.sub_diag.
    cbn. rewrite <- R. repeat split; auto.
  - destruct (m r (St pv (c :: t) o None) (fun s' => Some s')) as [s'|] eqn:E.
    + apply m_sound in E as (s1 & w & R & O & Hl & [= ->]).
      injection H as <-. cbn [rest off matched after before] in *.
      exists []. rewrite O, R. replace (o + length w - o) with (length w) by lia.
      rewrite firstn_app, Nat.sub_diag, firstn_all, app_nil_r. simpl.
      rewrite app_nil_r. repeat split; auto.
    + destruct (IH _ _ _ _ H) as (a & Hrs & Hb & Hl).
      exists (c :: a). rewrite Hb. cbn [rev app]. rewrite <- app_assoc.
      cbn [app]. repeat split; auto. congruence.
Qed.

End ReSound.

Lemma matches_found r : forall n pv rs o f,
  In f (fst (Re.matches n r pv rs o)) ->
  lang r (Re.matched f) /\ piece_of (Re.matched f) rs.
Proof.
  induction n as [|n IH]; intros pv rs o f H; [contradiction|].
  cbn [Re.matches] in H.
  destruct (Re.scan r pv rs o []) as [f0|] eqn:E; [|contradiction].
  destruct (ReSound.scan_found _ _ _ _ _ E) as (a & Hrs & _ & Hl).
  destruct (Re.matched f0) as [|x xs] eqn:Em.
  - destruct H as [<- | []]. rewrite Em. split; [exact Hl|].
    exists a, (Re.rest (Re.after f0)). exact Hrs.
  - destruct (Re.matches n r _ _ _) as [fs tl] eqn:Er. cbn [fst] in H.
    destruct H as [<- | H].
    + rewrite Em. split; [exact Hl|].
      exists a, (Re.rest (Re.after f0)). exact Hrs.
    + specialize (IH (Re.prev (Re.after f0)) (Re.rest (Re.after f0))
                     (Re.off (Re.after f0)) f).
      rewrite Er in IH. destruct (IH H) as (Hlf & u & v & Hp).
      split; [exact Hlf|].
      exists (a ++ (x :: xs) ++ u), v. rewrite Hrs, Hp.
      rewrite <- !app_assoc. reflexivity.
Qed.

Lemma findall_found r text e :
  In e (Re.findall r text) -> lang r e /\ piece_of e text.
Proof.
  unfold Re.findall, Re.all_matches. intros H.
  apply in_map_iff in H as (f & <- & H). eapply matches_found; eauto.
Qed.

Lemma first_occurrences_In matches : forall prior a,
  In a (first_occurrences prior matches) -> In a matches.
Proof.
  induction matches as [|x more IH]; intros prior a H; [contradiction|].
  cbn [first_occurrences] in H.
  destruct (existsb _ prior); [right; eauto|].
  destruct H as [<- | H]; [left; reflexivity | right; eauto].
Qed.

Lemma email_pattern_shape e : lang email_pattern e -> address_shape e.
Proof.
  unfold email_pattern. cbn [Re.seq lang Re.chr].
  intros (u0 & v0 & -> & -> & l & v1 & -> & [Hl Hlp] & a & v2 & -> &
          (c1 & -> & Hc1) & d & v3 & -> & [Hd Hdp] & b & v4 & -> &
          (c2 & -> & Hc2) & t & v5 & -> & [Ht Htp] & ->).
  apply Ascii.eqb_eq in Hc1, Hc2. subst c1 c2.
  exists l, d, t. rewrite app_nil_r. cbn [app].
  repeat split; auto.
  - intros ->. simpl in Hl. lia.
  - intros ->. simpl in Hd. lia.
Qed.

(** X1. Every address returned by [extract_emails_from_text] stands in the
    text as it is returned and has the shape local@domain.ending, the local
    part and the domain non-empty and the ending at least two characters,
    each part made of the characters its class allows. *)
Theorem emails_are_addresses (text : str) :
  Forall (fun e => address_shape e /\ piece_of e text)
         (extract_emails_from_text text).
Proof.
  apply Forall_forall. intros e H.
  unfold extract_emails_from_text in H. rewrite unique_first_occurrences in H.
  apply first_occurrences_In, findall_found in H as [Hl Hp].
  split; [apply email_pattern_shape, Hl | exact Hp].
Qed.

(* ================================================================== *)
(** * The keywords returned *)

Lemma cleaned_clean l :
  Forall (fun kw => kw <> [] /\ trimmed kw) (cleaned l).
Proof.
  apply Forall_forall. intros kw H. unfold cleaned in H.
  apply in_map_iff in H as (y & <- & H). apply filter_In in H as [_ H].
  split; [|apply strip_trimmed].
  destruct (strip y); [discriminate|discriminate].
Qed.

Lemma try_patterns_cleaned patterns text_lower ks :
  try_patterns patterns text_lower = Some ks -> exists l, ks = cleaned l.
Proof.
  induction patterns as [|r more IH]; [discriminate|].
  cbn [try_patterns]. destruct (Re.search r text_lower); [|exact IH].
  intros [= <-]. eauto.
Qed.

Lemma scan_lines_cleaned lines : exists l, scan_lines lines = cleaned l.
Proof.
  induction lines as [|line rest IH]; [exists []; reflexivity|].
  cbn [scan_lines]. destruct (Re.search _ _); [|exact IH].
  destruct (nonempty _); [eauto|].
  destruct rest as [|next rest']; [exact IH|].
  destruct (nonempty (strip next)); [eauto | exact IH].
Qed.

(** X2. Every keyword returned by [extract_keywords_from_text] is
    non-empty and has no white space at either end. *)
Theorem keywords_are_clean (text : str) :
  Forall (fun kw => kw <> [] /\ trimmed kw) (extract_keywords_from_text text).
Proof.
  unfold extract_keywords_from_text.
  destruct (try_patterns _ _) as [ks|] eqn:E.
  - apply try_patterns_cleaned in E as (l & ->). apply cleaned_clean.
  - destruct (scan_lines_cleaned (Py.split newline text)) as (l & ->).
    apply cleaned_clean.
Qed.

Lemma all_chars_all c : In c all_chars.
Proof.
  unfold all_chars. rewrite <- (ascii_nat_embedding c).
  apply in_map, in_seq. pose proof (nat_ascii_bounded c). lia.
Qed.

Lemma only_colon_sound p c :
  only_colon p = true -> p c = true -> lower_chr c = ":"%char.
Proof.
  unfold only_colon. rewrite forallb_forall. intros H Hp.
  specialize (H c (all_chars_all c)). rewrite Hp in H.
  apply Ascii.eqb_eq, H.
Qed.

Lemma has_colon_app_l u v : has_colon u -> has_colon (u ++ v).
Proof. intros (c & H & E). exists c. rewrite in_app_iff. auto. Qed.

Lemma has_colon_app_r u v : has_colon v -> has_colon (u ++ v).
Proof. intros (c & H & E). exists c. rewrite in_app_iff. auto. Qed.

Lemma needs_colon_sound r : forall w,
  needs_colon r = true -> lang r w -> has_colon w.
Proof.
  induction r as [|p|g lo p|a IHa b IHb|a IHa b IHb|a IHa|a IHa|];
    intros w H Hl; cbn [needs_colon lang] in *; try discriminate.
  - destruct Hl as (c & -> & Hp). exists c. split; [left; reflexivity|].
    eapply only_colon_sound; eauto.
  - apply andb_prop in H as [Hlo H]. apply Nat.ltb_lt in Hlo.
    destruct Hl as [Hn Hp]. destruct w as [|c w]; [simpl in Hn; lia|].
    cbn [forallb] in Hp. apply andb_prop in Hp as [Hc _].
    exists c. split; [left; reflexivity|]. eapply only_colon_sound; eauto.
  - destruct Hl as (u & v & -> & Hu & Hv).
    apply orb_prop in H as [H | H];
      [apply has_colon_app_l | apply has_colon_app_r]; auto.
  - apply andb_prop in H as [Ha Hb]. destruct Hl; auto.
  - auto.
Qed.

Lemma has_colon_In w : has_colon w -> In ":"%char w.
Proof. intros (c & H & E). apply lower_chr_colon in E. subst c. exact H. Qed.

Lemma search_needs_colon r text f :
  needs_colon r = true -> Re.search r text = Some f -> In ":"%char text.
Proof.
  intros Hr H. unfold Re.search in H.
  apply ReSound.scan_found in H as (a & -> & _ & Hl).
  apply (needs_colon_sound _ _ Hr), has_colon_In in Hl.
  rewrite !in_app_iff. auto.
Qed.

Lemma lower_colon_In text : In ":"%char (lower text) -> In ":"%char text.
Proof.
  unfold lower. intros H. apply in_map_iff in H as (c & E & H).
  apply lower_chr_colon in E. subst c. exact H.
Qed.

Lemma split_In sep s : forall w c, In w (Py.split sep s) -> In c w -> In c s.
Proof.
  induction s as [|x t IH]; intros w c Hw Hc.
  - destruct Hw as [<- | []]. contradiction.
  - cbn [Py.split] in Hw. destruct (chr_eqb x sep).
    + destruct Hw as [<- | Hw]; [contradiction | right; eauto].
    + destruct (Py.split sep t) as [|w0 ws] eqn:E.
      * destruct Hw as [<- | []]. destruct Hc as [<- | []]. left; reflexivity.
      * destruct Hw as [<- | Hw].
        -- destruct Hc as [<- | Hc]; [left; reflexivity|].
           right. apply (IH w0 c); [left; reflexivity | exact Hc].
        -- right. apply (IH w c); [right; exact Hw | exact Hc].
Qed.

Lemma scan_lines_without_colon lines :
  (forall line, In line lines -> ~ In ":"%char line) -> scan_lines lines = [].
Proof.
  induction lines as [|line rest IH]; intros H; [reflexivity|].
  cbn [scan_lines].
  destruct (Re.search keywords_colon (lower line)) as [f|] eqn:E.
  - exfalso. apply (H line (or_introl eq_refl)).
    apply lower_colon_In. eapply search_needs_colon; eauto. reflexivity.
  - apply IH. intros l Hl. apply H. right. exact Hl.
Qed.

Lemma try_patterns_without_colon patterns text_lower :
  forallb needs_colon patterns = true -> ~ In ":"%char text_lower ->
  try_patterns patterns text_lower = None.
Proof.
  induction patterns as [|r more IH]; intros Hp Hc; [reflexivity|].
  cbn [forallb] in Hp. apply andb_prop in Hp as [Hr Hm].
  cbn [try_patterns]. destruct (Re.search r text_lower) as [f|] eqn:E.
  - exfalso. apply Hc. eapply search_needs_colon; eauto.
  - apply IH; assumption.
Qed.

(** X3. A text without a colon yields no keywords: every way the function
    finds keywords needs one. *)
Theorem keywords_need_colon (text : str) :
  has_chr ":" text = false -> extract_keywords_from_text text = [].
Proof.
  intros H. apply has_chr_false in H. unfold extract_keywords_from_text.
  rewrite try_patterns_without_colon.
  - apply scan_lines_without_colon. intros line Hl Hc.
    apply H. eapply split_In; eauto.
  - reflexivity.
  - intros Hc. apply H, lower_colon_In, Hc.
Qed.

Lemma keywords_need_colon_witness :
  has_chr ":" (L "Keywords soil, nitrogen") = false /\
  extract_keywords_from_text (L "Keywords soil, nitrogen") = [].
Proof.
  split; [reflexivity|].
  apply (keywords_need_colon (L "Keywords soil, nitrogen")). reflexivity.
Defined.

(* ================================================================== *)
(** * Names that are already clean *)

Lemma sub_without_spaces repl s :
  no_space s -> Re.sub pat_spaces repl s = s.
Proof.
  intros H. rewrite ReFacts.sub_rebuilt. unfold Re.all_matches, pat_spaces.
  rewrite ReFacts.matches_none by (apply ReFacts.scan_run_none, H).
  reflexivity.
Qed.

Lemma sub_without_invalid s :
  (forall c, In c s -> is_invalid c = false) -> Re.sub pat_invalid [] s = s.
Proof.
  intros H. unfold pat_invalid. rewrite ReFacts.sub_chr_remove.
  induction s as [|x t IH]; [reflexivity|].
  simpl. rewrite (H x (or_introl eq_refl)). simpl. f_equal.
  apply IH. intros c Hc. apply H. right. exact Hc.
Qed.

Lemma sanitize_filename_fixed t :
  (forall c, In c t -> is_invalid c = false /\ is_space c = false) ->
  length t <= 200 -> sanitize_filename t = t.
Proof.
  intros H Hl. rewrite sanitize_filename_firstn. unfold uncut.
  rewrite sub_without_invalid by (intros c Hc; apply H, Hc).
  rewrite sub_without_spaces.
  - apply firstn_all2, Hl.
  - unfold no_space. apply forallb_forall. intros c Hc.
    apply negb_true_iff, H, Hc.
Qed.

Lemma sanitize_filename_kept t c :
  In c (sanitize_filename t) -> is_invalid c = false /\ is_space c = false.
Proof.
  rewrite sanitize_filename_firstn. intros H.
  apply In_firstn_In, uncut_In in H.
  destruct H as [-> | (_ & ? & ?)]; [split; reflexivity | auto].
Qed.

(** X4. A name that holds no invalid character and no white space and is at
    most 200 characters long is returned by [sanitize_filename] as it is. *)
Theorem sanitize_filename_clean_name (t : str) :
  (forall c, In c t -> is_invalid c = false /\ is_space c = false) ->
  length t <= 200 -> sanitize_filename t = t.
Proof. apply sanitize_filename_fixed. Qed.

Lemma sanitize_filename_clean_name_witness :
  (forall c, In c (L "01-Soil_pH") -> is_invalid c = false /\ is_space c = false)
  /\ length (L "01-Soil_pH") <= 200
  /\ sanitize_filename (L "01-Soil_pH") = L "01-Soil_pH".
Proof.
  assert (H : forall c, In c (L "01-Soil_pH") ->
                        is_invalid c = false /\ is_space c = false).
  { intros c Hc. simpl in Hc.
    repeat (destruct Hc as [<- | Hc]; [split; reflexivity|]). contradiction. }
  assert (Hl : length (L "01-Soil_pH") <= 200) by (simpl; lia).
  split; [exact H|]. split; [exact Hl|].
  exact (sanitize_filename_clean_name (L "01-Soil_pH") H Hl).
Defined.

(** X5. Sanitizing twice is sanitizing once. *)
Theorem sanitize_filename_idempotent (t : str) :
  sanitize_filename (sanitize_filename t) = sanitize_filename t.
Proof.
  apply sanitize_filename_fixed.
  - apply sanitize_filename_kept.
  - rewrite sanitize_filename_firstn. apply firstn_le_length.
Qed.

(* ================================================================== *)
(** * More on the file type *)

Lemma before_first_app sep u q :
  has_chr sep u = false -> before_first sep (u ++ sep :: q) = u.
Proof.
  induction u as [|x u IH]; intros H.
  - simpl. unfold chr_eqb. rewrite Ascii.eqb_refl. reflexivity.
  - rewrite OsPathFacts.has_chr_cons in H. apply orb_false_iff in H as [Hx Hu].
    simpl. unfold chr_eqb in *. rewrite Ascii.eqb_sym, Hx. f_equal. auto.
Qed.

Lemma before_first_without sep u :
  has_chr sep u = false -> before_first sep u = u.
Proof.
  induction u as [|x u IH]; intros H; [reflexivity|].
  rewrite OsPathFacts.has_chr_cons in H. apply orb_false_iff in H as [Hx Hu].
  simpl. unfold chr_eqb in *. rewrite Ascii.eqb_sym, Hx. f_equal. auto.
Qed.

(** X6. The query of a URL plays no part in its extension: a URL and the
    same URL followed by a question mark and anything have the same
    extension. *)
Theorem url_extension_ignores_query (u q : str) :
  has_chr "?" u = false ->
  get_file_extension_from_url (u ++ "?"%char :: q)
  = get_file_extension_from_url u.
Proof.
  intros H. rewrite !url_ext. unfold url_says.
  rewrite before_first_app, before_first_without by assumption. reflexivity.
Qed.

Lemma url_extension_ignores_query_witness :
  has_chr "?" (L "http://x/a.DOCX") = false /\
  get_file_extension_from_url (L "http://x/a.DOCX" ++ "?"%char :: L "v=1.pdf")
  = get_file_extension_from_url (L "http://x/a.DOCX").
Proof.
  split; [reflexivity|].
  apply (url_extension_ignores_query (L "http://x/a.DOCX") (L "v=1.pdf")).
  reflexivity.
Defined.

(** X7. Whatever the content type and the URL, the extension chosen is pdf
    or docx: no other extension is ever put on a save path. *)
Theorem chosen_extension_is_known (content_type url : str) :
  file_ext_of content_type url = L "pdf" \/
  file_ext_of content_type url = L "docx".
Proof.
  rewrite file_ext_of_resolved. unfold resolved_extension.
  destruct (content_type_says content_type) as [e|] eqn:Hc;
    [exact (content_type_says_known _ Hc)|].
  destruct (url_says url) as [e|] eqn:Hu; [|left; reflexivity].
  exact (url_says_known _ Hu).
Qed.

(* ================================================================== *)
(** * What a download leaves on disk *)

Lemma str_eqb_refl a : str_eqb a a = true.
Proof. apply str_eqb_eq. reflexivity. Qed.

Lemma str_eqb_neq a b : a <> b -> str_eqb a b = false.
Proof.
  intros H. destruct (str_eqb a b) eqn:E; [|reflexivity].
  apply str_eqb_eq in E. contradiction.
Qed.

Lemma content_of_cons p c (d : disk) q :
  content_of ((p, c) :: d) q = if str_eqb p q then c else content_of d q.
Proof. unfold content_of. cbn [find fst snd]. destruct (str_eqb p q); reflexivity. Qed.

Lemma write_chunks_content target chunks : forall s,
  content_of (files (snd (write_chunks target chunks s))) target
  = content_of (files s) target ++ concat chunks
  /\ forall q, q <> target ->
       content_of (files (snd (write_chunks target chunks s))) q
       = content_of (files s) q.
Proof.
  induction chunks as [|chunk more IH]; intros s.
  - cbn. rewrite app_nil_r. auto.
  - cbn [write_chunks concat]. unfold bindM.
    destruct chunk as [|c chunk].
    + unfold ret. apply IH.
    + unfold write_chunk.
      destruct (IH (DlState (save_path s)
                      ((target, content_of (files s) target ++ c :: chunk) :: files s)))
        as [Hc Hf].
      cbn [files] in *. rewrite content_of_cons, str_eqb_refl in Hc.
      split.
      * rewrite Hc, <- app_assoc. reflexivity.
      * intros q Hq. rewrite (Hf q Hq), content_of_cons.
        rewrite str_eqb_neq by congruence. reflexivity.
Qed.

Lemma download_file_disk w url given d :
  (forall q, q <> path (fst (download_file w url given d)) ->
             content_of (snd (download_file w url given d)) q = content_of d q)
  /\ (success (fst (download_file w url given d)) = true ->
      exists response,
        session_get w url = Ok response /\
        content_of (snd (download_file w url given d))
                   (path (fst (download_file w url given d)))
        = concat (iter_content response)).
Proof.
  unfold download_file, download_body, bindM, raise_if, lift,
    get_save_path, set_save_path, open_file, ret.
  destruct (session_get w url) as [response|e];
    [|cbn; split; [auto | discriminate]].
  destruct (raise_for_status response) as [e|];
    [cbn; split; [auto | discriminate]|].
  cbn [save_path files].
  destruct (match content_length_header response with
            | Some v => int_of w v
            | None => Ok 0%Z
            end) as [n|e]; [|cbn; split; [auto | discriminate]].
  destruct (open_wb w _) as [e|]; [cbn; split; [auto | discriminate]|].
  cbn [save_path files].
  match goal with
  | |- context [write_chunks ?p ?c ?s] =>
      destruct (write_chunks_state p c s) as (fs & Hw);
      destruct (write_chunks_content p c s) as [Hc Hf];
      rewrite Hw in *
  end.
  cbn [save_path files fst snd] in *.
  rewrite content_of_cons, str_eqb_refl in Hc. cbn [app] in Hc.
  destruct (stream_error response) as [e|];
    cbn [fst snd path success files save_path].
  - split; [|discriminate]. intros q Hq.
    rewrite (Hf q Hq), content_of_cons.
    rewrite str_eqb_neq by congruence. reflexivity.
  - split; [|eauto]. intros q Hq. rewrite (Hf q Hq), content_of_cons.
    rewrite str_eqb_neq by congruence. reflexivity.
Qed.

(** X8. After a successful download the file at the returned path holds
    the chunks of the response, in order and nothing else, whatever the
    file held before. *)
Theorem download_writes_stream (w : env) (url given : str) (d : disk)
        (response : response) :
  session_get w url = Ok response ->
  success (fst (download_file w url given d)) = true ->
  content_of (snd (download_file w url given d))
             (path (fst (download_file w url given d)))
  = concat (iter_content response).
Proof.
  intros Hs H.
  destruct (download_file_disk w url given d) as [_ Hd].
  destruct (Hd H) as (r & Hr & ->). congruence.
Qed.

Lemma download_writes_stream_witness :
  session_get serving_pdf (L "http://x/a")
  = Ok (Response None (Some (L "application/pdf")) None [L "%PDF"] None) /\
  success (fst (download_file serving_pdf (L "http://x/a") (L "/d/01-a.docx")
                  [(L "/d/01-a.pdf", L "old")])) = true /\
  content_of (snd (download_file serving_pdf (L "http://x/a") (L "/d/01-a.docx")
                     [(L "/d/01-a.pdf", L "old")]))
             (path (fst (download_file serving_pdf (L "http://x/a")
                           (L "/d/01-a.docx") [(L "/d/01-a.pdf", L "old")])))
  = concat (iter_content
              (Response None (Some (L "application/pdf")) None [L "%PDF"] None)).
Proof.
  split; [reflexivity|]. split; [reflexivity|].
  apply (download_writes_stream serving_pdf (L "http://x/a") (L "/d/01-a.docx")
           [(L "/d/01-a.pdf", L "old")]); reflexivity.
Defined.

(** X9. A download, failed or not, changes no file but the one at the
    path of its outcome. *)
Theorem download_touches_one_file (w : env) (url given : str) (d : disk)
        (q : str) :
  q <> path (fst (download_file w url given d)) ->
  content_of (snd (download_file w url given d)) q = content_of d q.
Proof. apply download_file_disk. Qed.

Lemma download_touches_one_file_witness :
  L "/d/02-b.pdf"
  <> path (fst (download_file serving_pdf (L "http://x/a") (L "/d/01-a.pdf")
                  [(L "/d/02-b.pdf", L "kept")])) /\
  content_of (snd (download_file serving_pdf (L "http://x/a") (L "/d/01-a.pdf")
                     [(L "/d/02-b.pdf", L "kept")])) (L "/d/02-b.pdf")
  = content_of [(L "/d/02-b.pdf", L "kept")] (L "/d/02-b.pdf").
Proof.
  assert (H : L "/d/02-b.pdf"
              <> path (fst (download_file serving_pdf (L "http://x/a")
                              (L "/d/01-a.pdf") [(L "/d/02-b.pdf", L "kept")])))
    by (vm_compute; discriminate).
  split; [exact H|].
  exact (@download_touches_one_file serving_pdf (L "http://x/a") (L "/d/01-a.pdf")
           [(L "/d/02-b.pdf", L "kept")] (L "/d/02-b.pdf") H).
Defined.

(* ================================================================== *)
(** * The abstract *)

Lemma runs_replaced_starts repl b b' :
  runs_replaced repl b b' -> starts_plain b -> b <> [] -> starts_plain b'.
Proof.
  intros H. destruct H as [a Ha | a ws b0 b0' Ha Hne Hws Hb Hr]; intros Hs Hn.
  - exact Hs.
  - destruct a as [|x a].
    + destruct ws as [|c ws]; [contradiction|].
      unfold all_space in Hws. cbn in Hws, Hs.
      apply andb_prop in Hws as [Hc _]. congruence.
    + exact Hs.
Qed.

Lemma runs_replaced_nil repl b' : runs_replaced repl [] b' -> b' = [].
Proof.
  intros H. remember [] as s eqn:E.
  destruct H as [a Ha | a ws b b0 Ha Hne Hws Hb Hr]; [reflexivity|].
  destruct a, ws; try discriminate. exfalso. apply Hne. reflexivity.
Qed.

Lemma single_spaces_plain a t :
  no_space a -> single_spaces t -> single_spaces (a ++ t).
Proof.
  induction a as [|x a IH]; intros Ha Ht; [exact Ht|].
  unfold no_space in Ha. cbn in Ha. apply andb_prop in Ha as [Hx Ha].
  apply negb_true_iff in Hx. cbn [app single_spaces]. split.
  - intros E. congruence.
  - apply IH; assumption.
Qed.

Lemma runs_replaced_single s u :
  runs_replaced (L " ") s u -> single_spaces u.
Proof.
  induction 1 as [a Ha | a ws b b' Ha Hne Hws Hb Hr IH].
  - rewrite <- (app_nil_r a). apply single_spaces_plain; [assumption | exact I].
  - apply single_spaces_plain; [assumption|].
    change (L " " ++ b') with (" "%char :: b'). cbn [single_spaces].
    split; [|exact IH]. intros _. split; [reflexivity|].
    destruct b as [|y b].
    + rewrite (@runs_replaced_nil _ _ Hr). exact I.
    + eapply runs_replaced_starts; eauto. discriminate.
Qed.

Lemma single_spaces_lstrip s : single_spaces s -> single_spaces (lstrip s).
Proof.
  induction s as [|c t IH]; intros H; [exact I|].
  cbn [lstrip]. destruct (is_space c); [apply IH, H | exact H].
Qed.

Lemma single_spaces_prefix p t : single_spaces (p ++ t) -> single_spaces p.
Proof.
  induction p as [|c p IH]; [intros _; exact I|].
  cbn [app single_spaces]. intros [Hc Hp]. split; [|auto].
  intros E. destruct (Hc E) as [-> Hs]. split; [reflexivity|].
  destruct p; [exact I | exact Hs].
Qed.

Lemma lstrip_suffix s : exists h, s = h ++ lstrip s.
Proof.
  induction s as [|c t (h & IH)]; [exists []; reflexivity|].
  cbn [lstrip]. destruct (is_space c).
  - exists (c :: h). cbn. f_equal. exact IH.
  - exists []. reflexivity.
Qed.

Lemma rstrip_prefix s : exists t, s = rstrip s ++ t.
Proof.
  unfold rstrip. destruct (lstrip_suffix (rev s)) as (h & H).
  exists (rev h). rewrite <- rev_app_distr, <- H. symmetry. apply rev_involutive.
Qed.

Lemma single_spaces_strip s : single_spaces s -> single_spaces (strip s).
Proof.
  intros H. unfold strip. apply single_spaces_lstrip in H.
  destruct (rstrip_prefix (lstrip s)) as (t & E). rewrite E in H.
  eapply single_spaces_prefix; eauto.
Qed.

(** X10. The cleaned abstract has no white space at either end, and every
    white space character left in it is one plain space between two other
    characters, whatever the text of the markup was. *)
Theorem abstract_is_normalized (get_text : str -> str) (input_value : str) :
  trimmed (extract_abstract get_text input_value) /\
  single_spaces (extract_abstract get_text input_value).
Proof.
  unfold extract_abstract. split; [apply strip_trimmed|].
  apply single_spaces_strip. eapply runs_replaced_single.
  apply ReFacts.sub_spaces.
Qed.

Example abstract_example :
  extract_abstract (fun v => v) (L "   Soil    pH" ++ [newline; newline] ++ L " rises  ")
  = L "Soil pH rises".
Proof. reflexivity. Qed.

(* ================================================================== *)
(** * The download tasks *)

Section Tasks.
Variable get_text : str -> str.
Variables (url volume_dir : str) (f : fragments).

Lemma tasks_at_cases i :
  tasks_at get_text url volume_dir f i
  = if has_link f i
    then [Task i (file_path (article_at get_text volume_dir f i))
               (absolute_link url (nth i (all_downloads f) []))]
    else [].
Proof.
  unfold tasks_at, has_link. cbn [locals_at download_link].
  destruct (nth i (all_downloads f) []); reflexivity.
Qed.

Lemma tasks_idx range :
  map idx (flat_map (tasks_at get_text url volume_dir f) range)
  = filter (has_link f) range.
Proof.
  induction range as [|i more IH]; [reflexivity|].
  cbn [flat_map filter]. rewrite map_app, IH, tasks_at_cases.
  destruct (has_link f i); reflexivity.
Qed.

Lemma tasks_In range t :
  In t (flat_map (tasks_at get_text url volume_dir f) range) <->
  In (idx t) range /\ has_link f (idx t) = true /\
  t = Task (idx t) (file_path (article_at get_text volume_dir f (idx t)))
           (absolute_link url (nth (idx t) (all_downloads f) [])).
Proof.
  rewrite in_flat_map. split.
  - intros (i & Hi & Ht). rewrite tasks_at_cases in Ht.
    destruct (has_link f i) eqn:E; [|contradiction].
    destruct Ht as [<- | []]. cbn [idx]. auto.
  - intros (Hi & Hl & Ht). exists (idx t). split; [exact Hi|].
    rewrite tasks_at_cases, Hl. left. symmetry. exact Ht.
Qed.

(** X11. The loop makes one task for each record that has a download link
    and none for the others: the tasks' record indexes are pairwise
    distinct, each task carries the file path of its record and the link of
    that record made absolute, and every record with a link has its task. *)
Theorem tasks_follow_links :
  exists metadata tasks,
    correlate get_text url volume_dir f = Ok (metadata, tasks) /\
    NoDup (map idx tasks) /\
    map idx tasks = filter (has_link f) (seq 0 (length (all_topics f))) /\
    Forall (fun t => exists a,
                nth_error metadata (idx t) = Some a /\
                task_path t = file_path a /\
                task_url t = absolute_link url (nth (idx t) (all_downloads f) []))
           tasks.
Proof.
  rewrite correlate_closed. eexists _, _. split; [reflexivity|].
  rewrite tasks_idx. split; [apply NoDup_filter, seq_NoDup|].
  split; [reflexivity|].
  apply Forall_forall. intros t Ht. apply tasks_In in Ht as (Hi & _ & Ht).
  exists (article_at get_text volume_dir f (idx t)). split.
  - rewrite nth_error_map, nth_error_seq. apply in_seq in Hi.
    destruct (idx t <? length (all_topics f)) eqn:E; [reflexivity|].
    apply Nat.ltb_ge in E. lia.
  - rewrite Ht at 1 3. cbn [task_path task_url]. auto.
Qed.

End Tasks.

(* ================================================================== *)
(** * Links of a page served over HTTP *)

Lemma startswith_prefix p : forall s,
  startswith p s = true -> exists rest, s = p ++ rest.
Proof.
  induction p as [|x p IH]; intros s H; [exists s; reflexivity|].
  destruct s as [|y s]; [discriminate|]. cbn [startswith] in H.
  apply andb_prop in H as [Hx H]. apply Ascii.eqb_eq in Hx. subst y.
  destruct (IH _ H) as (rest & ->). exists rest. reflexivity.
Qed.

(** X12. On a page whose URL starts with http:// or https://, every link
    comes out absolute: the resolved link starts with http. *)
Theorem absolute_link_is_absolute (url href : str) :
  startswith (L "http://") url = true \/ startswith (L "https://") url = true ->
  startswith (L "http") (absolute_link url href) = true.
Proof.
  intros H. unfold absolute_link.
  destruct (startswith (L "http") href) eqn:E; cbn [negb]; [exact E|].
  change (L "/") with ["/"%char].
  rewrite join_firstn_split, join_removelast_split.
  assert (Hu : exists rest, url = L "http://" ++ rest \/ url = L "https://" ++ rest).
  { destruct H as [H | H]; apply startswith_prefix in H as (rest & ->); eauto. }
  destruct Hu as (rest & [-> | ->]);
    destruct (startswith ["/"%char] href); reflexivity.
Qed.

Lemma absolute_link_is_absolute_witness :
  (startswith (L "http://") (L "https://site.org/vol/issue.php") = true \/
   startswith (L "https://") (L "https://site.org/vol/issue.php") = true) /\
  startswith (L "http")
    (absolute_link (L "https://site.org/vol/issue.php") (L "files/a.pdf")) = true.
Proof.
  split; [right; reflexivity|].
  apply (absolute_link_is_absolute (L "https://site.org/vol/issue.php")
           (L "files/a.pdf")).
  right. reflexivity.
Defined.

(* ================================================================== *)
(** * The download phase and the mining phase *)

Lemma download_phase_run w completed : forall metadata d successful,
  fst (download_phase w completed metadata d successful)
  = run_downloads w completed metadata d.
Proof.
  induction completed as [|t more IH]; intros metadata d successful;
    [reflexivity|].
  cbn [download_phase run_downloads]. unfold record_result.
  destruct (download_file w (task_url t) (task_path t) d) as [r d'].
  destruct (success r); apply IH.
Qed.

Lemma download_phase_successes w completed : forall metadata d successful,
  snd (download_phase w completed metadata d successful)
  = successful ++ successes w completed.
Proof.
  induction completed as [|t more IH]; intros metadata d successful.
  - cbn. rewrite app_nil_r. reflexivity.
  - cbn [download_phase successes flat_map].
    pose proof (download_file_outcome w (task_url t) (task_path t) d) as Ho.
    destruct (download_file w (task_url t) (task_path t) d) as [r d'].
    cbn [fst] in Ho. subst r.
    destruct (success _); rewrite IH; fold (successes w more);
      rewrite <- ?app_assoc; reflexivity.
Qed.

Lemma store_mined_nth metadata : forall j m i,
  nth_error (store_mined metadata j m) i
  = if i =? j then option_map (set_mined m) (nth_error metadata i)
    else nth_error metadata i.
Proof.
  induction metadata as [|a more IH]; intros j m i.
  - destruct (i =? j), i; reflexivity.
  - destruct j as [|j], i as [|i]; try reflexivity. cbn. apply IH.
Qed.

Lemma same_but_mined_refl a : same_but_mined a a.
Proof. repeat split. Qed.

Lemma same_but_mined_trans a b c :
  same_but_mined a b -> same_but_mined b c -> same_but_mined a c.
Proof.
  unfold same_but_mined. intros (? & ? & ? & ? & ?) (? & ? & ? & ? & ?).
  repeat split; congruence.
Qed.

Lemma store_mined_same metadata : forall j m,
  Forall2 same_but_mined metadata (store_mined metadata j m).
Proof.
  induction metadata as [|a more IH]; intros j m; [constructor|].
  destruct j as [|j]; cbn [store_mined]; constructor.
  - repeat split.
  - clear. induction more; constructor; [apply same_but_mined_refl | assumption].
  - apply same_but_mined_refl.
  - apply IH.
Qed.

Lemma Forall2_same_trans l1 l2 l3 :
  Forall2 same_but_mined l1 l2 -> Forall2 same_but_mined l2 l3 ->
  Forall2 same_but_mined l1 l3.
Proof.
  intros H. revert l3. induction H as [|a b l1 l2 Hab H IH]; intros l3 H3.
  - inversion H3. constructor.
  - inversion H3 as [|? c ? l3' Hbc H3']. subst. constructor.
    + eapply same_but_mined_trans; eauto.
    + apply IH, H3'.
Qed.

Lemma mine_same r successful : forall metadata,
  Forall2 same_but_mined metadata (mine r successful metadata).
Proof.
  induction successful as [|[i p] more IH]; intros metadata.
  - cbn. induction metadata; constructor;
      [apply same_but_mined_refl | assumption].
  - cbn [mine]. eapply Forall2_same_trans; [apply store_mined_same | apply IH].
Qed.

Lemma mine_untouched r successful : forall metadata i,
  ~ In i (map fst successful) ->
  nth_error (mine r successful metadata) i = nth_error metadata i.
Proof.
  induction successful as [|[j p] more IH]; intros metadata i H; [reflexivity|].
  cbn [mine map fst In] in *. rewrite IH by tauto.
  rewrite store_mined_nth. destruct (i =? j) eqn:E; [|reflexivity].
  apply Nat.eqb_eq in E. subst. tauto.
Qed.

(** X13. Mining sets only the keywords and the email: it keeps the number
    and the order of the records, and in each the title, the pages, the
    authors, the abstract and the file path; a record that is not on the
    list of successful downloads stays as it was. *)
Theorem mining_keeps_records (r : reader) (successful : list (nat * str))
        (metadata : list article) :
  Forall2 same_but_mined metadata (mine r successful metadata) /\
  (forall i, ~ In i (map fst successful) ->
             nth_error (mine r successful metadata) i = nth_error metadata i).
Proof. split; [apply mine_same | apply mine_untouched]. Qed.

Lemma store_path_length metadata : forall j p,
  length (store_path metadata j p) = length metadata.
Proof.
  induction metadata as [|a more IH]; intros [|j] p; cbn; auto.
Qed.

Lemma run_downloads_recorded w completed : forall metadata d t,
  NoDup (map idx completed) -> In t completed ->
  idx t < length metadata ->
  success (outcome_of w (task_url t) (task_path t)) = true ->
  exists a,
    nth_error (fst (run_downloads w completed metadata d)) (idx t) = Some a /\
    file_path a = path (outcome_of w (task_url t) (task_path t)).
Proof.
  induction completed as [|t0 more IH]; intros metadata d t Hnd Hin Hlt Hs;
    [contradiction|].
  cbn [map] in Hnd. inversion Hnd as [|? ? Hnot Hnd']. subst.
  cbn [run_downloads].
  pose proof (download_file_outcome w (task_url t0) (task_path t0) d) as Ho.
  destruct (download_file w (task_url t0) (task_path t0) d) as [r d'].
  cbn [fst] in Ho. subst r. destruct Hin as [-> | Hin].
  - rewrite run_downloads_untouched.
    + unfold record_result. rewrite Hs, store_path_nth, Nat.eqb_refl.
      destruct (nth_error metadata (idx t)) as [a|] eqn:E;
        [|apply nth_error_None in E; lia].
      eexists. split; reflexivity.
    + intros t' Ht' Hi. exfalso. apply Hnot. rewrite <- Hi. apply in_map, Ht'.
  - apply IH; auto. unfold record_result.
    destruct (success (outcome_of w (task_url t0) (task_path t0)));
      [rewrite store_path_length|]; exact Hlt.
Qed.

(** X14. When no two completed tasks belong to the same record, every
    entry of the list of successful downloads names the file its record
    points to after the download phase: mining reads, for each record, the
    file written for that record. *)
Theorem mined_file_is_the_records (w : env) (completed : list task)
        (metadata : list article) (d : disk) :
  NoDup (map idx completed) ->
  (forall t, In t completed -> idx t < length metadata) ->
  Forall (fun entry =>
            exists a,
              nth_error (fst (fst (download_phase w completed metadata d [])))
                        (fst entry) = Some a /\
              file_path a = snd entry)
         (snd (download_phase w completed metadata d [])).
Proof.
  intros Hnd Hlt. rewrite download_phase_successes, download_phase_run.
  cbn [app]. apply Forall_forall. intros [i p] H.
  unfold successes in H. apply in_flat_map in H as (t & Ht & H).
  destruct (success _) eqn:Hs; [|contradiction].
  destruct H as [[= <- <-] | []]. cbn [fst snd].
  apply run_downloads_recorded; auto.
Qed.

Lemma mined_file_is_the_records_witness :
  NoDup (map idx [Task 1 (L "/d/02-b.pdf") (L "http://x/b");
                  Task 0 (L "/d/01-a.pdf") (L "http://x/a")]) /\
  (forall t, In t [Task 1 (L "/d/02-b.pdf") (L "http://x/b");
                   Task 0 (L "/d/01-a.pdf") (L "http://x/a")] ->
             idx t < length [Article (L "a") [] [] [] (L "/d/01-a.pdf") [] [];
                             Article (L "b") [] [] [] (L "/d/02-b.pdf") [] []]) /\
  Forall (fun entry =>
            exists a,
              nth_error
                (fst (fst (download_phase serving_pdf
                             [Task 1 (L "/d/02-b.pdf") (L "http://x/b");
                              Task 0 (L "/d/01-a.pdf") (L "http://x/a")]
                             [Article (L "a") [] [] [] (L "/d/01-a.pdf") [] [];
                              Article (L "b") [] [] [] (L "/d/02-b.pdf") [] []]
                             [] [])))
                (fst entry) = Some a /\
              file_path a = snd entry)
         (snd (download_phase serving_pdf
                 [Task 1 (L "/d/02-b.pdf") (L "http://x/b");
                  Task 0 (L "/d/01-a.pdf") (L "http://x/a")]
                 [Article (L "a") [] [] [] (L "/d/01-a.pdf") [] [];
                  Article (L "b") [] [] [] (L "/d/02-b.pdf") [] []]
                 [] [])).
Proof.
  assert (H1 : NoDup (map idx [Task 1 (L "/d/02-b.pdf") (L "http://x/b");
                               Task 0 (L "/d/01-a.pdf") (L "http://x/a")])).
  { simpl. repeat constructor; simpl; intuition discriminate. }
  assert (H2 : forall t, In t [Task 1 (L "/d/02-b.pdf") (L "http://x/b");
                               Task 0 (L "/d/01-a.pdf") (L "http://x/a")] ->
             idx t < length [Article (L "a") [] [] [] (L "/d/01-a.pdf") [] [];
                             Article (L "b") [] [] [] (L "/d/02-b.pdf") [] []]).
  { intros t [<- | [<- | []]]; simpl; lia. }
  split; [exact H1|]. split; [exact H2|].
  exact (mined_file_is_the_records serving_pdf _ _ [] H1 H2).
Defined.



(* ================================================================== *)
(** * The whole run *)

Lemma splitext_final volume_dir i t e :
  e = L "pdf" \/ e = L "docx" ->
  OsPath.splitext (OsPath.dir_prefix volume_dir ++ stem i t ++ L "." ++ e)
  = (OsPath.dir_prefix volume_dir ++ stem i t, L "." ++ e).
Proof.
  intros He.
  pose proof (stem_no_slash i t) as H1. pose proof (stem_no_dot i t) as H2.
  destruct (stem_starts i t) as (c & rest & Hs). rewrite Hs in *.
  change (L "." ++ e) with ("."%char :: e).
  apply splitext_name; auto using dir_prefix_shape;
    destruct He as [-> | ->]; reflexivity.
Qed.

Lemma map_nth_seq (l : list str) : forall d : nat -> str,
  map (fun i => nth i l (d i)) (seq 0 (length l)) = l.
Proof.
  induction l as [|x l IH]; intros d; [reflexivity|].
  cbn [length seq map nth]. f_equal.
  rewrite <- seq_shift, map_map. exact (IH (fun i => d (S i))).
Qed.

Lemma store_path_map {B} (g : article -> B) metadata :
  (forall p a, g (set_file_path p a) = g a) ->
  forall j p, map g (store_path metadata j p) = map g metadata.
Proof.
  intros Hg. induction metadata as [|a more IH]; intros [|j] p; cbn;
    try reflexivity; [rewrite Hg | rewrite IH]; reflexivity.
Qed.

Lemma run_downloads_map {B} (g : article -> B) w completed :
  (forall p a, g (set_file_path p a) = g a) ->
  forall metadata d,
    map g (fst (run_downloads w completed metadata d)) = map g metadata.
Proof.
  intros Hg. induction completed as [|t more IH]; intros metadata d;
    [reflexivity|].
  cbn [run_downloads].
  destruct (download_file w (task_url t) (task_path t) d) as [r d'].
  rewrite IH. unfold record_result.
  destruct (success r); [apply store_path_map, Hg | reflexivity].
Qed.

Lemma same_but_mined_map l l' :
  Forall2 same_but_mined l l' ->
  map title l' = map title l /\ map page_number l' = map page_number l /\
  map authors l' = map authors l /\ map file_path l' = map file_path l.
Proof.
  induction 1 as [|a a' l l' (Ht & Hp & Ha & _ & Hf) H (I1 & I2 & I3 & I4)];
    [repeat split|].
  cbn [map]. rewrite Ht, Hp, Ha, Hf, I1, I2, I3, I4. repeat split.
Qed.

Section Run.
Variable get_text : str -> str.
Variables (url volume_dir : str) (f : fragments).

(** X16. Every file that the run hands to mining is one it can read as a
    PDF or as a DOCX: the path of a successful download of the run ends in
    .pdf or .docx, so [process_file_for_metadata] mines the text of the one
    or of the other and never takes the file for an unsupported type. *)
Theorem downloaded_files_are_minable :
  exists metadata tasks,
    correlate get_text url volume_dir f = Ok (metadata, tasks) /\
    forall w r completed d,
      Permutation completed tasks ->
      Forall (fun entry =>
                process_file_for_metadata r (snd entry)
                = mined_from (extract_text_from_pdf r (snd entry)) \/
                process_file_for_metadata r (snd entry)
                = mined_from (extract_text_from_docx r (snd entry)))
             (snd (download_phase w completed metadata d [])).
Proof.
  rewrite correlate_closed. eexists _, _. split; [reflexivity|].
  intros w r completed d Hp.
  rewrite download_phase_successes. cbn [app].
  apply Forall_forall. intros [i p] H.
  unfold successes in H. apply in_flat_map in H as (t & Ht & H).
  destruct (success _) eqn:Hs; [|contradiction].
  destruct H as [[= <- <-] | []]. cbn [snd].
  apply outcome_of_success in Hs as (ct & ->). cbn [path].
  apply (Permutation_in _ Hp), task_from_loop in Ht. rewrite Ht.
  rewrite with_extension_provisional by apply file_ext_of_known.
  unfold process_file_for_metadata.
  rewrite splitext_final by apply file_ext_of_known. cbn [snd].
  destruct (file_ext_of_known ct (task_url t)) as [-> | ->];
    [left | right]; reflexivity.
Qed.

(** X17. Whatever the downloads and the mining do, the run stops without
    output exactly when no topic was found, and otherwise writes one record
    per topic, in the order of the page: the titles are the topics, the
    pages and the authors are those of the page or empty, and the file
    paths are still pairwise distinct. *)
Theorem run_keeps_records (w : env) (r : reader)
        (schedule : list task -> list task) (d : disk) :
  (forall tasks, Permutation (schedule tasks) tasks) ->
  match main_from_fragments get_text w r schedule url volume_dir f d with
  | None => all_topics f = []
  | Some (metadata, _) =>
      all_topics f <> [] /\
      map title metadata = all_topics f /\
      map page_number metadata
      = map (fun i => nth i (all_pages f) []) (seq 0 (length (all_topics f))) /\
      map authors metadata
      = map (fun i => nth i (all_authors f) []) (seq 0 (length (all_topics f))) /\
      NoDup (map file_path metadata)
  end.
Proof.
  intros Hsched. unfold main_from_fragments.
  destruct (length (all_topics f) <? 1) eqn:En.
  { apply Nat.ltb_lt in En. destruct (all_topics f); [reflexivity|].
    simpl in En. lia. }
  apply Nat.ltb_ge in En. rewrite correlate_closed.
  set (metadata0 := map (article_at get_text volume_dir f)
                        (seq 0 (length (all_topics f)))).
  remember (flat_map (tasks_at get_text url volume_dir f)
                     (seq 0 (length (all_topics f)))) as tasks eqn:Etasks.
  assert (Hnz : all_topics f <> []) by (intros E; rewrite E in En; simpl in En; lia).
  assert (H0 : map title metadata0 = all_topics f
               /\ map page_number metadata0
                  = map (fun i => nth i (all_pages f) [])
                        (seq 0 (length (all_topics f)))
               /\ map authors metadata0
                  = map (fun i => nth i (all_authors f) [])
                        (seq 0 (length (all_topics f)))).
  { unfold metadata0. rewrite !map_map. cbn. repeat split.
    apply (map_nth_seq (all_topics f)
             (fun i => L "Article " ++ decimal (i + 1))). }
  assert (Hfin : forall completed successful d0,
             (forall t, In t completed -> In t tasks) ->
             let final := mine r successful
                               (fst (run_downloads w completed metadata0 d0)) in
             map title final = all_topics f /\
             map page_number final
             = map (fun i => nth i (all_pages f) [])
                   (seq 0 (length (all_topics f))) /\
             map authors final
             = map (fun i => nth i (all_authors f) [])
                   (seq 0 (length (all_topics f))) /\
             NoDup (map file_path final)).
  { intros completed successful d0 Hin final.
    destruct (same_but_mined_map (mine_same r successful
                (fst (run_downloads w completed metadata0 d0))))
      as (E1 & E2 & E3 & E4).
    fold final in E1, E2, E3, E4. rewrite E1, E2, E3, E4.
    rewrite !run_downloads_map by reflexivity.
    destruct H0 as (T1 & T2 & T3). repeat split; auto.
    apply (@paths_ok_NoDup get_text volume_dir f).
    apply run_downloads_ok.
    - intros t Ht. apply Hin in Ht. rewrite Etasks in Ht.
      eapply task_from_loop. exact Ht.
    - apply paths_ok_initial. }
  clear Etasks. destruct tasks as [|t0 tasks0].
  - specialize (Hfin [] [] d (fun t H => match H with end)).
    cbn in Hfin. cbn [mine]. tauto.
  - pose proof (download_phase_run w (schedule (t0 :: tasks0)) metadata0 d [])
      as Hr.
    destruct (download_phase w (schedule (t0 :: tasks0)) metadata0 d [])
      as [[metadata1 d1] successful].
    cbn [fst] in Hr.
    specialize (Hfin (schedule (t0 :: tasks0)) successful d).
    rewrite <- Hr in Hfin. cbn [fst] in Hfin.
    split; [exact Hnz|]. apply Hfin.
    intros t Ht. eapply Permutation_in; [apply Hsched | exact Ht].
Qed.

End Run.

Lemma run_keeps_records_witness :
  (forall tasks : list task, Permutation ((fun ts => ts) tasks) tasks) /\
  match main_from_fragments (fun v => v) serving_pdf unreadable (fun ts => ts)
          (L "http://site/vol/") downloads_dir two_topics [] with
  | None => all_topics two_topics = []
  | Some (metadata, _) =>
      all_topics two_topics <> [] /\
      map title metadata = all_topics two_topics /\
      map page_number metadata
      = map (fun i => nth i (all_pages two_topics) [])
            (seq 0 (length (all_topics two_topics))) /\
      map authors metadata
      = map (fun i => nth i (all_authors two_topics) [])
            (seq 0 (length (all_topics two_topics))) /\
      NoDup (map file_path metadata)
  end.
Proof.
  split; [intros; apply Permutation_refl|].
  apply (run_keeps_records (fun v => v) (L "http://site/vol/") downloads_dir
           two_topics serving_pdf unreadable (fun ts => ts) []).
  intros; apply Permutation_refl.
Defined.

(* ================================================================== *)
(** * The pieces of a split *)

Section Pieces.
Variables (r : Re.re) (p : ascii -> bool).
Hypothesis Hstart : starts_at r p.
Hypothesis Hcons : consuming r.

Lemma scan_none_free rs : forall pv o sk,
  Re.scan r pv rs o sk = None -> Re.none_of p rs.
Proof.
  induction rs as [|c t IH]; intros pv o sk H; [reflexivity|].
  cbn [Re.scan] in H.
  destruct (Re.m r (Re.St pv (c :: t) o None) (fun s' => Some s')) eqn:E;
    [discriminate|].
  unfold Re.none_of. cbn [forallb]. apply andb_true_intro. split.
  - apply negb_true_iff. destruct (p c) eqn:Hp; [|reflexivity].
    exfalso. eapply Hstart; eauto.
  - eapply IH, H.
Qed.

Lemma scan_before_free rs : forall pv o sk f,
  Re.scan r pv rs o sk = Some f ->
  exists a, Re.before f = rev sk ++ a /\ Re.none_of p a.
Proof.
  induction rs as [|c t IH]; intros pv o sk f H; cbn [Re.scan] in H.
  - destruct (Re.m r _ _); [|discriminate]. injection H as <-.
    exists []. cbn [Re.before]. rewrite app_nil_r. split; reflexivity.
  - destruct (Re.m r (Re.St pv (c :: t) o None) (fun s' => Some s')) eqn:E.
    + injection H as <-. exists []. cbn [Re.before]. rewrite app_nil_r.
      split; reflexivity.
    + destruct (IH _ _ _ _ H) as (a & Hb & Ha).
      exists (c :: a). split.
      * rewrite Hb. cbn [rev]. rewrite <- app_assoc. reflexivity.
      * unfold Re.none_of. cbn [forallb]. apply andb_true_intro. split; [|exact Ha].
        apply negb_true_iff. destruct (p c) eqn:Hp; [|reflexivity].
        exfalso. eapply Hstart; eauto.
Qed.

Lemma matches_pieces : forall n pv rs o,
  length rs < n ->
  Forall (Re.none_of p)
         (map Re.before (fst (Re.matches n r pv rs o))
          ++ [snd (Re.matches n r pv rs o)]).
Proof.
  induction n as [|n IH]; intros pv rs o Hn; [lia|].
  cbn [Re.matches].
  destruct (Re.scan r pv rs o []) as [f|] eqn:E.
  2: { cbn. constructor; [|constructor]. eapply scan_none_free; eauto. }
  destruct (scan_before_free _ _ _ _ E) as (a & Hb & Ha). cbn [rev app] in Hb.
  destruct (ReSound.scan_found _ _ _ _ _ E) as (a' & Hrs & _ & Hl).
  destruct (Re.matched f) as [|x xs] eqn:Em; [exfalso; eapply Hcons; eauto|].
  specialize (IH (Re.prev (Re.after f)) (Re.rest (Re.after f))
                 (Re.off (Re.after f))).
  destruct (Re.matches n r _ _ _) as [fs tl]. cbn [fst snd map app] in *.
  constructor; [rewrite Hb; exact Ha|].
  apply IH. rewrite ?Em in Hrs. apply (f_equal (@length ascii)) in Hrs.
  rewrite !length_app in Hrs. cbn [length app] in Hrs.
  rewrite ?length_app in Hrs. lia.
Qed.

Lemma split_pieces text : Forall (Re.none_of p) (Re.split r text).
Proof.
  unfold Re.split, Re.all_matches.
  pose proof (@matches_pieces (S (length text)) None text 0 ltac:(lia)) as H.
  destruct (Re.matches _ r None text 0). exact H.
Qed.

End Pieces.

Lemma rep0_total g p rs : forall pv o gr,
  Re.rep0 g p pv rs o gr (fun s' => Some s') <> None.
Proof.
  induction rs as [|c t IH]; intros pv o gr; cbn [Re.rep0]; [discriminate|].
  destruct (p c); [|discriminate].
  destruct g.
  - specialize (IH (Some c) (S o) gr).
    destruct (Re.rep0 true p (Some c) t (S o) gr _); [discriminate | contradiction].
  - discriminate.
Qed.

Lemma separators_start : starts_at separators is_separator.
Proof.
  intros pv c t o Hc. unfold separators. cbn [Re.m Re.rest].
  fold (is_separator c). rewrite Hc. cbn [Re.rep Re.prev Re.rest Re.off Re.grp].
  apply rep0_total.
Qed.

Lemma separators_or_newline_start : starts_at separators_or_newline is_separator.
Proof.
  intros pv c t o Hc. unfold separators_or_newline. cbn [Re.m].
  pose proof (separators_start pv c t o Hc) as H. unfold separators in H.
  cbn [Re.m] in H.
  destruct (match Re.rest _ with [] => None | _ => _ end); [discriminate|].
  contradiction.
Qed.

Lemma separators_consuming : consuming separators.
Proof.
  intros w (u & v & -> & (c & -> & _) & _). discriminate.
Qed.

Lemma separators_or_newline_consuming : consuming separators_or_newline.
Proof.
  intros w [(u & v & -> & (c & -> & _) & _) | (c & -> & _)]; discriminate.
Qed.

Lemma cleaned_free l :
  Forall (Re.none_of is_separator) l ->
  Forall (fun kw => forall c, In c kw -> is_separator c = false) (cleaned l).
Proof.
  intros H. apply Forall_forall. intros kw Hk c Hc.
  unfold cleaned in Hk. apply in_map_iff in Hk as (y & <- & Hy).
  apply filter_In in Hy as [Hy _]. apply strip_In in Hc.
  rewrite Forall_forall in H. specialize (H y Hy).
  unfold Re.none_of in H. rewrite forallb_forall in H.
  apply negb_true_iff, H, Hc.
Qed.

Lemma try_patterns_split patterns text_lower ks :
  try_patterns patterns text_lower = Some ks ->
  exists x, ks = cleaned (Re.split separators_or_newline x).
Proof.
  induction patterns as [|r more IH]; [discriminate|].
  cbn [try_patterns]. destruct (Re.search r text_lower); [|exact IH].
  intros [= <-]. eauto.
Qed.

Lemma scan_lines_split lines :
  scan_lines lines = [] \/
  exists x, scan_lines lines = cleaned (Re.split separators x).
Proof.
  induction lines as [|line rest IH]; [left; reflexivity|].
  cbn [scan_lines]. destruct (Re.search _ _); [|exact IH].
  destruct (nonempty _); [right; eauto|].
  destruct rest as [|next rest']; [exact IH|].
  destruct (nonempty (strip next)); [right; eauto | exact IH].
Qed.

(** X18. No keyword returned holds a comma or a semicolon: the text is cut
    at every one of them. *)
Theorem keywords_hold_no_separator (text : str) :
  Forall (fun kw => has_chr "," kw = false /\ has_chr ";" kw = false)
         (extract_keywords_from_text text).
Proof.
  assert (H : Forall (fun kw => forall c, In c kw -> is_separator c = false)
                     (extract_keywords_from_text text)).
  { unfold extract_keywords_from_text.
    destruct (try_patterns _ _) as [ks|] eqn:E.
    - apply try_patterns_split in E as (x & ->). apply cleaned_free.
      apply split_pieces;
        [apply separators_or_newline_start | apply separators_or_newline_consuming].
    - destruct (scan_lines_split (Py.split newline text)) as [-> | (x & ->)];
        [constructor|].
      apply cleaned_free.
      apply split_pieces; [apply separators_start | apply separators_consuming]. }
  eapply Forall_impl; [|exact H]. cbn beta. intros kw Hk.
  split; apply has_chr_false; intros Hin; apply Hk in Hin; discriminate.
Qed.

(* ================================================================== *)
(** * When the path of a record changes *)

(** X19. A successful download of a record's provisional path returns that
    very path exactly when the file is taken for a PDF; taken for a DOCX,
    it returns the path with docx in place of pdf. *)
Theorem path_changes_for_docx (w : env) (url volume_dir : str) (i : nat)
        (topic : str) (d : disk) :
  success (fst (download_file w url (provisional_path volume_dir i topic) d))
  = true ->
  (path (fst (download_file w url (provisional_path volume_dir i topic) d))
   = provisional_path volume_dir i topic
   <-> extension (fst (download_file w url (provisional_path volume_dir i topic) d))
       = Some (L "pdf"))
  /\ (extension (fst (download_file w url (provisional_path volume_dir i topic) d))
      = Some (L "docx") ->
      path (fst (download_file w url (provisional_path volume_dir i topic) d))
      = OsPath.dir_prefix volume_dir ++ stem i topic ++ L ".docx").
Proof.
  rewrite download_file_outcome. intros H.
  apply outcome_of_success in H as (ct & ->). cbn [path extension].
  rewrite with_extension_provisional by apply file_ext_of_known.
  rewrite provisional_path_shape.
  destruct (file_ext_of_known ct url) as [-> | ->]; split.
  - split; reflexivity.
  - discriminate.
  - split; [|discriminate]. intros E. exfalso.
    do 2 apply app_inv_head in E. discriminate.
  - reflexivity.
Qed.

Lemma path_changes_for_docx_witness :
  success (fst (download_file serving_pdf (L "http://x/a")
                  (provisional_path downloads_dir 0 (L "Soil pH")) [])) = true /\
  ((path (fst (download_file serving_pdf (L "http://x/a")
                 (provisional_path downloads_dir 0 (L "Soil pH")) []))
    = provisional_path downloads_dir 0 (L "Soil pH")
    <-> extension (fst (download_file serving_pdf (L "http://x/a")
                          (provisional_path downloads_dir 0 (L "Soil pH")) []))
        = Some (L "pdf"))
   /\ (extension (fst (download_file serving_pdf (L "http://x/a")
                         (provisional_path downloads_dir 0 (L "Soil pH")) []))
       = Some (L "docx") ->
       path (fst (download_file serving_pdf (L "http://x/a")
                    (provisional_path downloads_dir 0 (L "Soil pH")) []))
       = OsPath.dir_prefix downloads_dir ++ stem 0 (L "Soil pH") ++ L ".docx")).
Proof.
  split; [reflexivity|].
  apply (path_changes_for_docx serving_pdf (L "http://x/a") downloads_dir 0
           (L "Soil pH") []).
  reflexivity.
Defined.
